(** * Blahut-Arimoto step and rate computation of [backend/bit_baa_fast.cc]

    A shallow embedding of the functions of [bit_baa_fast.cc] and the
    properties of them that the specification states.

    The scalar type [Float], the codeword type [EfficientBitCodeWord] and the
    transition model [get_bit_transition_prob_fast] are declared in headers
    that are not part of the sources at hand ([utils.h], [bit_channel.h]);
    they are parameters of the embedding.  [log], [exp] and [std::isnan] come
    from [<cmath>].  Structural properties are proved for every choice of
    these parameters; numeric properties are proved on the instance [xreal]
    (reals extended with the IEEE special values, exact arithmetic on the
    finite ones). *)

From Stdlib Require Import List Bool Arith Lia Reals Lra.
Import ListNotations.

Set Implicit Arguments.

(** ** The scalar interface *)

(** What the code uses of [Float]: the literals that occur in the source, the
    four arithmetic operations, [<], [std::isnan], [log] and [exp]. *)
Class FloatOps := {
  Float : Type;
  fzero : Float;                      (* 0.0 *)
  ftwo : Float;                       (* 2 *)
  f1em12 : Float;                     (* 1E-12 *)
  f1em20 : Float;                     (* 1E-20 *)
  f1em30 : Float;                     (* 1E-30 *)
  f1em50 : Float;                     (* 1E-50 *)
  fadd : Float -> Float -> Float;
  fsub : Float -> Float -> Float;
  fmul : Float -> Float -> Float;
  fdiv : Float -> Float -> Float;
  flt : Float -> Float -> bool;
  fisnan : Float -> bool;
  flog : Float -> Float;
  fexp : Float -> Float
}.

(** ** Undefined behaviour *)

(** A read past the end of a vector, the dereference of [end()] and a failed
    [assert] have no result: the embedding returns [None] there. *)
Definition bind {A B : Type} (m : option A) (k : A -> option B) : option B :=
  match m with
  | Some a => k a
  | None => None
  end.

Notation "x <- m ;; k" := (bind m (fun x => k))
  (at level 61, m at next level, right associativity).

(** [v[j] = x] on a vector, nothing happens out of range (the code never
    writes out of range). *)
Fixpoint set_nth {A : Type} (v : list A) (j : nat) (x : A) : list A :=
  match v, j with
  | [], _ => []
  | _ :: v', O => x :: v'
  | y :: v', S j' => y :: set_nth v' j' x
  end.

(** ** The code *)

Section Code.

Context {F : FloatOps}.

(** [EfficientBitCodeWord] and the transition model. *)
Variable EfficientBitCodeWord : Type.
Variable get_bit_transition_prob_fast :
  EfficientBitCodeWord -> EfficientBitCodeWord -> Float.

(** [compute_Pjk_row]: one probability per received codeword. *)
Definition compute_Pjk_row (transmitted : EfficientBitCodeWord)
    (received : list EfficientBitCodeWord) : list Float :=
  map (fun rec => get_bit_transition_prob_fast transmitted rec) received.

(** [compute_Pjk_col]: one probability per transmitted codeword. *)
Definition compute_Pjk_col (transmitted : list EfficientBitCodeWord)
    (received : EfficientBitCodeWord) : list Float :=
  map (fun trans => get_bit_transition_prob_fast trans received) transmitted.

(** [std::inner_product(first1, last1, first2, init)]: the second range is
    read at every position of the first one.  The accumulator has the type
    of [init], the literal [0.0]; it is taken to be [Float]. *)
Fixpoint inner_product (r1 r2 : list Float) (init : Float) : option Float :=
  match r1 with
  | [] => Some init
  | x :: r1' =>
      match r2 with
      | [] => None
      | y :: r2' => inner_product r1' r2' (fadd init (fmul x y))
      end
  end.

(** [compute_Wjk_den]. *)
Definition compute_Wjk_den (transmitted : list EfficientBitCodeWord)
    (received : EfficientBitCodeWord) (Q_i : list Float) : option Float :=
  inner_product (compute_Pjk_col transmitted received) Q_i fzero.

(** [compute_all_log_Wjk_den]: the loop advances by two and reads
    [*rec_iter] and [*(rec_iter + 1)]; with one codeword left the second read
    is the dereference of [end()]. *)
Fixpoint compute_all_log_Wjk_den (transmitted received : list EfficientBitCodeWord)
    (Q_i : list Float) : option (list Float) :=
  match received with
  | [] => Some []
  | rec1 :: [] =>
      den1 <- compute_Wjk_den transmitted rec1 Q_i ;;
      None
  | rec1 :: rec2 :: rest =>
      den1 <- compute_Wjk_den transmitted rec1 Q_i ;;
      den2 <- compute_Wjk_den transmitted rec2 Q_i ;;
      let entry := flog (fdiv (fadd den1 den2) ftwo) in
      log_Wjk_den <- compute_all_log_Wjk_den transmitted rest Q_i ;;
      Some (entry :: entry :: log_Wjk_den)
  end.

(** The loop of [compute_log_alpha_k]: [probs_row[i]] and [log_W_jk_den[i]]
    are both read before the test. *)
Fixpoint log_alpha_loop (log_Q_k : Float) (probs_row log_W_jk_den : list Float)
    (log_alpha : Float) : option Float :=
  match probs_row with
  | [] => Some log_alpha
  | P_jk :: probs_row' =>
      match log_W_jk_den with
      | [] => None
      | log_den :: log_W_jk_den' =>
          if flt P_jk f1em12
          then log_alpha_loop log_Q_k probs_row' log_W_jk_den' log_alpha
          else log_alpha_loop log_Q_k probs_row' log_W_jk_den'
                 (fadd log_alpha
                    (fmul P_jk (fsub (fadd log_Q_k (flog P_jk)) log_den)))
      end
  end.

(** [compute_log_alpha_k]. *)
Definition compute_log_alpha_k (transmitted : EfficientBitCodeWord)
    (received : list EfficientBitCodeWord) (Q_k : Float)
    (log_W_jk_den : list Float) : option Float :=
  let log_Q_k := flog Q_k in
  let probs_row := compute_Pjk_row transmitted received in
  log_alpha_loop log_Q_k probs_row log_W_jk_den fzero.

(** [compute_all_log_alpha_k]: [Q_iter] advances with [trans_iter]. *)
Fixpoint compute_all_log_alpha_k (transmitted received : list EfficientBitCodeWord)
    (Q_i log_W_jk_den : list Float) : option (list Float) :=
  match transmitted with
  | [] => Some []
  | trans :: transmitted' =>
      match Q_i with
      | [] => None
      | Q_k :: Q_i' =>
          log_alpha <- compute_log_alpha_k trans received Q_k log_W_jk_den ;;
          log_alphas <- compute_all_log_alpha_k transmitted' received Q_i' log_W_jk_den ;;
          Some (log_alpha :: log_alphas)
      end
  end.

(** [std::max_element]: the first largest element under [<]; on an empty
    range it returns [end()], which the caller dereferences. *)
Fixpoint max_element_from (largest : Float) (l : list Float) : Float :=
  match l with
  | [] => largest
  | x :: l' => max_element_from (if flt largest x then x else largest) l'
  end.

Definition max_element (l : list Float) : option Float :=
  match l with
  | [] => None
  | x :: l' => Some (max_element_from x l')
  end.

(** [std::accumulate(first, last, 0.0)], the accumulator taken to be a
    [Float] as in [inner_product]. *)
Definition accumulate (l : list Float) (init : Float) : Float :=
  fold_left fadd l init.

(** The stabilised alphas of [do_full_baa_step] (lines 14 to 20). *)
Definition stabilized_alphas (transmitted received : list EfficientBitCodeWord)
    (Q_i : list Float) : option (list Float) :=
  log_W_jk <- compute_all_log_Wjk_den transmitted received Q_i ;;
  log_alphas <- compute_all_log_alpha_k transmitted received Q_i log_W_jk ;;
  max_log_alpha <- max_element log_alphas ;;
  Some (map (fun log_alpha => fexp (fsub log_alpha max_log_alpha)) log_alphas).

(** [do_full_baa_step]. *)
Definition do_full_baa_step (transmitted received : list EfficientBitCodeWord)
    (Q_i : list Float) : option (list Float) :=
  alphas <- stabilized_alphas transmitted received Q_i ;;
  let alpha_sum := accumulate alphas fzero in
  Some (map (fun alpha => fdiv alpha alpha_sum) alphas).

(** The inner loop of [compute_bit_rate_efficient]. *)
Fixpoint bit_rate_row (Qk : Float) (probs_row log_W_jk_den : list Float)
    (rate : Float) : option Float :=
  match probs_row with
  | [] => Some rate
  | P_jk :: probs_row' =>
      match log_W_jk_den with
      | [] => None
      | log_den :: log_W_jk_den' =>
          let log_P_jk := flog P_jk in
          if flt P_jk f1em20
          then bit_rate_row Qk probs_row' log_W_jk_den' rate
          else bit_rate_row Qk probs_row' log_W_jk_den'
                 (fadd rate (fmul (fmul Qk P_jk) (fsub log_P_jk log_den)))
      end
  end.

(** The outer loop of [compute_bit_rate_efficient]; the assertion has made
    [Q_i] as long as [transmitted]. *)
Fixpoint bit_rate_loop (transmitted received : list EfficientBitCodeWord)
    (log_W_jk_den Q_i : list Float) (rate : Float) : option Float :=
  match transmitted with
  | [] => Some rate
  | trans :: transmitted' =>
      match Q_i with
      | [] => None
      | Qk :: Q_i' =>
          let probs_row := compute_Pjk_row trans received in
          rate' <- bit_rate_row Qk probs_row log_W_jk_den rate ;;
          bit_rate_loop transmitted' received log_W_jk_den Q_i' rate'
      end
  end.

(** [compute_bit_rate_efficient]. *)
Definition compute_bit_rate_efficient (transmitted received : list EfficientBitCodeWord)
    (log_W_jk_den Q_i : list Float) : option Float :=
  if Nat.eqb (length transmitted) (length Q_i)
  then bit_rate_loop transmitted received log_W_jk_den Q_i fzero
  else None.

(** [compute_rate], the table: row [i] holds the probabilities out of
    [transmitted[i]]. *)
Definition prob_table (transmitted received : list EfficientBitCodeWord)
    : list (list Float) :=
  map (fun trans =>
         map (fun rec => get_bit_transition_prob_fast trans rec) received)
      transmitted.

(** [compute_rate], lines 149 to 153: [denominator[j]], with [col] the
    column [j] of the table. *)
Fixpoint denominator_loop (col Q_i : list Float) (den : Float) : option Float :=
  match col with
  | [] => Some den
  | p :: col' =>
      match Q_i with
      | [] => None
      | q :: Q_i' => denominator_loop col' Q_i' (fadd den (fmul p q))
      end
  end.

Fixpoint mapM {A B : Type} (f : A -> option B) (l : list A) : option (list B) :=
  match l with
  | [] => Some []
  | a :: l' =>
      b <- f a ;;
      bs <- mapM f l' ;;
      Some (b :: bs)
  end.

Definition denominators (transmitted received : list EfficientBitCodeWord)
    (Q_i : list Float) : option (list Float) :=
  mapM (fun rec =>
          denominator_loop
            (map (fun trans => get_bit_transition_prob_fast trans rec) transmitted)
            Q_i fzero)
       received.

(** [compute_rate], lines 165 to 168. *)
Definition clamp_denominator (denominator : list Float) (j : nat)
    : option (list Float) :=
  d <- nth_error denominator j ;;
  Some (if fisnan d || flt d f1em50
        then set_nth denominator j f1em50
        else denominator).

(** [compute_rate], the loop over [j] of lines 159 to 172: the state is the
    vector [denominator], which the loop overwrites, and [rate]. *)
Fixpoint rate_row (Q_i : list Float) (k : nat) (row : list Float) (j : nat)
    (st : list Float * Float) : option (list Float * Float) :=
  match row with
  | [] => Some st
  | p :: row' =>
      if flt p f1em30
      then rate_row Q_i k row' (S j) st
      else
        denominator <- clamp_denominator (fst st) j ;;
        d <- nth_error denominator j ;;
        Qk <- nth_error Q_i k ;;
        rate_row Q_i k row' (S j)
          (denominator, fadd (snd st) (fmul (fmul Qk p) (flog (fdiv p d))))
  end.

(** [compute_rate], the loop over [k] of lines 157 to 172. *)
Fixpoint rate_loop (Q_i : list Float) (table : list (list Float)) (k : nat)
    (st : list Float * Float) : option (list Float * Float) :=
  match table with
  | [] => Some st
  | row :: table' =>
      st' <- rate_row Q_i k row 0 st ;;
      rate_loop Q_i table' (S k) st'
  end.

(** [compute_rate]. *)
Definition compute_rate (transmitted received : list EfficientBitCodeWord)
    (Q_i : list Float) : option Float :=
  let table := prob_table transmitted received in
  denominator <- denominators transmitted received Q_i ;;
  st <- rate_loop Q_i table 0 (denominator, fzero) ;;
  Some (snd st).

(** The loop of [get_transmitted_codewords_symmetries]: [i] advances by two
    and [all_trans_codewords[i]] is pushed. *)
Fixpoint even_codewords_loop (all_trans_codewords : list EfficientBitCodeWord)
    : list EfficientBitCodeWord :=
  match all_trans_codewords with
  | [] => []
  | c :: [] => [c]
  | c :: _ :: rest => c :: even_codewords_loop rest
  end.

(** [get_transmitted_codewords_symmetries]; the assertion wants an even
    number of codewords. *)
Definition get_transmitted_codewords_symmetries
    (all_trans_codewords : list EfficientBitCodeWord)
    : option (list EfficientBitCodeWord) :=
  if Nat.even (length all_trans_codewords)
  then Some (even_codewords_loop all_trans_codewords)
  else None.

End Code.

(** ** Exact arithmetic with the IEEE special values *)

(** The instance on which the numeric properties are proved: a finite value
    is a real number and the operations are exact on finite values, so
    rounding, overflow, underflow and the sign of zero are not modelled; NaN
    and the two infinities behave as in IEEE 754 (a comparison with NaN is
    false, [inf - inf], [0 * inf], [0 / 0] and [inf / inf] are NaN,
    [log 0 = -inf], [exp (-inf) = 0]). *)
Inductive xreal : Type :=
| XNaN : xreal
| XPInf : xreal
| XNInf : xreal
| XFin : R -> xreal.

Open Scope R_scope.

Definition Rltb (a b : R) : bool := if Rlt_dec a b then true else false.

Definition xneg (x : xreal) : xreal :=
  match x with
  | XNaN => XNaN
  | XPInf => XNInf
  | XNInf => XPInf
  | XFin a => XFin (- a)
  end.

Definition xadd (x y : xreal) : xreal :=
  match x, y with
  | XNaN, _ | _, XNaN => XNaN
  | XPInf, XNInf | XNInf, XPInf => XNaN
  | XPInf, _ | _, XPInf => XPInf
  | XNInf, _ | _, XNInf => XNInf
  | XFin a, XFin b => XFin (a + b)
  end.

Definition xsub (x y : xreal) : xreal :=
  match x, y with
  | XNaN, _ | _, XNaN => XNaN
  | XPInf, XPInf | XNInf, XNInf => XNaN
  | XPInf, _ | _, XNInf => XPInf
  | XNInf, _ | _, XPInf => XNInf
  | XFin a, XFin b => XFin (a - b)
  end.

(** An infinity scaled by the finite value [a]. *)
Definition xscale_inf (a : R) (pos : bool) : xreal :=
  if Rltb 0 a then (if pos then XPInf else XNInf)
  else if Rltb a 0 then (if pos then XNInf else XPInf)
  else XNaN.

Definition xmul (x y : xreal) : xreal :=
  match x, y with
  | XNaN, _ | _, XNaN => XNaN
  | XFin a, XFin b => XFin (a * b)
  | XFin a, XPInf | XPInf, XFin a => xscale_inf a true
  | XFin a, XNInf | XNInf, XFin a => xscale_inf a false
  | XPInf, XPInf | XNInf, XNInf => XPInf
  | XPInf, XNInf | XNInf, XPInf => XNInf
  end.

Definition xdiv (x y : xreal) : xreal :=
  match x, y with
  | XNaN, _ | _, XNaN => XNaN
  | XFin a, XFin b =>
      if Rltb b 0 then XFin (a / b)
      else if Rltb 0 b then XFin (a / b)
      else xscale_inf a true
  | XFin _, (XPInf | XNInf) => XFin 0
  | XPInf, XFin b => if Rltb b 0 then XNInf else XPInf
  | XNInf, XFin b => if Rltb b 0 then XPInf else XNInf
  | (XPInf | XNInf), (XPInf | XNInf) => XNaN
  end.

Definition xlt (x y : xreal) : bool :=
  match x, y with
  | XNaN, _ | _, XNaN => false
  | _, XNInf => false
  | XPInf, _ => false
  | XNInf, _ => true
  | XFin _, XPInf => true
  | XFin a, XFin b => Rltb a b
  end.

Definition xisnan (x : xreal) : bool :=
  match x with
  | XNaN => true
  | _ => false
  end.

Definition xlog (x : xreal) : xreal :=
  match x with
  | XNaN | XNInf => XNaN
  | XPInf => XPInf
  | XFin a =>
      if Rltb 0 a then XFin (ln a)
      else if Rltb a 0 then XNaN
      else XNInf
  end.

Definition xexp (x : xreal) : xreal :=
  match x with
  | XNaN => XNaN
  | XPInf => XPInf
  | XNInf => XFin 0
  | XFin a => XFin (exp a)
  end.

Definition r1em12 : R := / 10 ^ 12.
Definition r1em20 : R := / 10 ^ 20.
Definition r1em30 : R := / 10 ^ 30.
Definition r1em50 : R := / 10 ^ 50.

#[export] Instance xreal_ops : FloatOps := {|
  Float := xreal;
  fzero := XFin 0;
  ftwo := XFin 2;
  f1em12 := XFin r1em12;
  f1em20 := XFin r1em20;
  f1em30 := XFin r1em30;
  f1em50 := XFin r1em50;
  fadd := xadd;
  fsub := xsub;
  fmul := xmul;
  fdiv := xdiv;
  flt := xlt;
  fisnan := xisnan;
  flog := xlog;
  fexp := xexp
|}.

Definition is_finite (x : xreal) : Prop := exists a : R, x = XFin a.


(** NaN, [+inf] or a finite value that is not negative: what [exp] returns. *)
Definition not_negative (x : xreal) : Prop :=
  match x with
  | XNInf => False
  | XFin a => 0 <= a
  | _ => True
  end.

(** NaN, [+inf] or a finite value of at least 1. *)
Definition at_least_one (x : xreal) : Prop :=
  match x with
  | XNInf => False
  | XFin a => 1 <= a
  | _ => True
  end.

(** [-inf] or a finite value: what a log-alpha is on finite data. *)
Definition finite_or_ninf (x : xreal) : Prop :=
  match x with
  | XNInf | XFin _ => True
  | _ => False
  end.

(** ** The statements of the specification *)

Section SpecStatements.

Context {F : FloatOps}.
Variable CW : Type.
Variable P : CW -> CW -> Float.

(** Section 4.2 of the specification, as written: the result has one entry
    per received symbol and entry [j] is the log of the marginal of
    [received[j]] alone. *)
Definition log_denominators_spec (transmitted received : list CW)
    (Q : list Float) : Prop :=
  exists result,
    compute_all_log_Wjk_den P transmitted received Q = Some result /\
    length result = length received /\
    forall j rec W_j,
      nth_error received j = Some rec ->
      compute_Wjk_den P transmitted rec Q = Some W_j ->
      nth_error result j = Some (flog W_j).

(** Section 4.2, the partitioning rule, as written: the calls on the
    sub-ranges, concatenated in order. *)
Definition partitioned_log_denominators (transmitted : list CW)
    (subranges : list (list CW)) (Q : list Float) : option (list Float) :=
  parts <- mapM (fun sub => compute_all_log_Wjk_den P transmitted sub Q) subranges ;;
  Some (concat parts).

(** What the loop writes for the pair that starts at [2 * m]. *)
Definition pair_entry_at (tx rx : list CW) (Q result : list Float) (m : nat) : Prop :=
  exists rec1 rec2 den1 den2,
    nth_error rx (2 * m) = Some rec1 /\
    nth_error rx (2 * m + 1) = Some rec2 /\
    compute_Wjk_den P tx rec1 Q = Some den1 /\
    compute_Wjk_den P tx rec2 Q = Some den2 /\
    nth_error result (2 * m) = Some (flog (fdiv (fadd den1 den2) ftwo)) /\
    nth_error result (2 * m + 1) = Some (flog (fdiv (fadd den1 den2) ftwo)).

(** Section 4.4, step 2, as written: the term of the received symbol with
    probability [P_jk] and log-denominator [log_den]; it is zero under the
    threshold. *)
Definition log_alpha_term (log_Q_k P_jk log_den : Float) : Float :=
  if flt P_jk f1em12
  then fzero
  else fmul P_jk (fsub (fadd log_Q_k (flog P_jk)) log_den).

(** Section 4.4, step 2, as written: the sum of the terms over the received
    symbols, taken in their order. *)
Definition log_alpha_spec (trans : CW) (received : list CW) (Q_k : Float)
    (log_W_den : list Float) : Float :=
  fold_left fadd
    (map (fun rd => log_alpha_term (flog Q_k) (P trans (fst rd)) (snd rd))
         (combine received log_W_den))
    fzero.

(** The log-alphas computed on sub-ranges of the transmitted symbols, each
    with its own slice of the priors, concatenated in order. *)
Definition partitioned_log_alphas (subranges : list (list CW)) (received : list CW)
    (slices : list (list Float)) (log_W_den : list Float) : option (list Float) :=
  parts <- mapM (fun cq => compute_all_log_alpha_k P (fst cq) received (snd cq) log_W_den)
                (combine subranges slices) ;;
  Some (concat parts).

End SpecStatements.

(** ** The values computed in exact arithmetic *)

(** A transition model whose values are all finite. *)
Definition finite_channel {CW : Type} (p : CW -> CW -> R) : CW -> CW -> xreal :=
  fun t r => XFin (p t r).

Section RealValues.

Variable CW : Type.
Variable p : CW -> CW -> R.

(** A sum taken from the left, as the loops of the code take it. *)
Definition Rsum (l : list R) : R := fold_left Rplus l 0.

(** [W_j = sum_i P(transmitted[i], rec) * Q[i]]. *)
Definition marginal (tx : list CW) (q : list R) (rec : CW) : R :=
  Rsum (map (fun tq => p (fst tq) rec * snd tq) (combine tx q)).

(** The log-denominators of the pairs of received symbols. *)
Fixpoint log_den_real (tx : list CW) (q : list R) (rx : list CW) : list R :=
  match rx with
  | rec1 :: rec2 :: rest =>
      let entry := ln ((marginal tx q rec1 + marginal tx q rec2) / 2) in
      entry :: entry :: log_den_real tx q rest
  | _ => []
  end.

(** Every pair of received symbols has a positive mean marginal. *)
Fixpoint pair_marginals_positive (tx : list CW) (q : list R) (rx : list CW) : Prop :=
  match rx with
  | rec1 :: rec2 :: rest =>
      0 < marginal tx q rec1 + marginal tx q rec2 /\
      pair_marginals_positive tx q rest
  | _ => True
  end.

(** The two received symbols of every pair have the same marginal. *)
Fixpoint pair_marginals_equal (tx : list CW) (q : list R) (rx : list CW) : Prop :=
  match rx with
  | rec1 :: rec2 :: rest =>
      marginal tx q rec1 = marginal tx q rec2 /\
      pair_marginals_equal tx q rest
  | _ => True
  end.

(** The mean marginal of every pair of received symbols, once for each of
    its two symbols. *)
Fixpoint pair_means (tx : list CW) (q : list R) (rx : list CW) : list R :=
  match rx with
  | rec1 :: rec2 :: rest =>
      let mean := (marginal tx q rec1 + marginal tx q rec2) / 2 in
      mean :: mean :: pair_means tx q rest
  | _ => []
  end.


(** A codeword of prior 0 reaches, with probability at least 1e-20, only
    received symbols of pairs with a positive mean marginal. *)
Definition zero_priors_reach_positive_pairs (tx : list CW) (q : list R)
    (rx : list CW) : Prop :=
  forall t r mean,
    In (t, 0) (combine tx q) ->
    In (r, mean) (combine rx (pair_means tx q rx)) ->
    r1em20 <= p t r -> 0 < mean.

(** The term of one received symbol in a log-alpha. *)
Definition alpha_contrib (qk pjk w : R) : R :=
  if Rltb pjk r1em12 then 0 else pjk * (ln qk + ln pjk - w).

Definition log_alpha_real (t : CW) (rx : list CW) (qk : R) (lw : list R) : R :=
  Rsum (map (fun rw => alpha_contrib qk (p t (fst rw)) (snd rw)) (combine rx lw)).

(** The term of one pair of symbols in the row-major rate. *)
Definition eff_contrib (qk pjk w : R) : R :=
  if Rltb pjk r1em20 then 0 else qk * pjk * (ln pjk - w).

Definition eff_rate_real (tx rx : list CW) (lw q : list R) : R :=
  Rsum (flat_map
          (fun tq => map (fun rw => eff_contrib (snd tq) (p (fst tq) (fst rw)) (snd rw))
                         (combine rx lw))
          (combine tx q)).

(** A denominator raised to the floor. *)
Definition floor50 (d : R) : R := if Rltb d r1em50 then r1em50 else d.

(** The stored denominator [d] of a symbol with marginal [w]: the marginal
    itself, or the floor once the loop has overwritten it. *)
Definition den_state (w d : R) : Prop := d = w \/ d = floor50 w.

(** The term of one pair of symbols in the dense rate. *)
Definition dense_contrib (qk pkj d : R) : R :=
  if Rltb pkj r1em30 then 0 else qk * pkj * ln (pkj / floor50 d).

Definition dense_rate_real (tx rx : list CW) (q : list R) : R :=
  Rsum (flat_map
          (fun tq => map (fun rec => dense_contrib (snd tq) (p (fst tq) rec)
                                       (marginal tx q rec))
                         rx)
          (combine tx q)).

(** Some received symbol passes the threshold 1e-12 of the log-alpha of
    [t]. *)
Definition row_kept (t : CW) (rx : list CW) : bool :=
  existsb (fun r => negb (Rltb (p t r) r1em12)) rx.

(** The distribution after one step: the log-alphas, exponentiated and
    normalised. *)
Definition log_alphas_real (tx rx : list CW) (q : list R) : list R :=
  map (fun tq => log_alpha_real (fst tq) rx (snd tq) (log_den_real tx q rx))
      (combine tx q).

Definition baa_step_real (tx rx : list CW) (q : list R) : list R :=
  let las := log_alphas_real tx rx q in
  map (fun la => exp la / Rsum (map exp las)) las.

End RealValues.

(** ** The Blahut-Arimoto update on finite sums *)

Definition sum_over {A : Type} (l : list A) (f : A -> R) : R := Rsum (map f l).

(** [x * ln (x / w)], zero at [x = 0]. *)
Definition kl_term (x w : R) : R :=
  if Rltb 0 x then x * (ln x - ln w) else 0.

Section BlahutArimotoValues.

(** Inputs [la] with the transition probabilities [pr a b] to the outputs
    [lb], and a weight [qa a] on every input. *)
Variables A B : Type.
Variable la : list A.
Variable lb : list B.
Variable pr : A -> B -> R.

Definition ba_marginal (qa : A -> R) (b : B) : R :=
  sum_over la (fun a => pr a b * qa a).

Definition ba_divergence (qa : A -> R) (a : A) : R :=
  sum_over lb (fun b => kl_term (pr a b) (ba_marginal qa b)).

(** The mutual information under the weights [qa]. *)
Definition ba_information (qa : A -> R) : R :=
  sum_over la (fun a => qa a * ba_divergence qa a).

Definition ba_partition (qa : A -> R) : R :=
  sum_over la (fun a => qa a * exp (ba_divergence qa a)).

(** The weights after one update. *)
Definition ba_update (qa : A -> R) (a : A) : R :=
  qa a * exp (ba_divergence qa a) / ba_partition qa.

End BlahutArimotoValues.

(** The entropy of a distribution, in nats. *)
Definition entropy (q : list R) : R := - Rsum (map (fun x => x * ln x) q).

(** ** Channels used as examples *)

(** Codewords are numbered; one transmitted codeword that is received as
    codeword 0 with probability 1/4 and as codeword 1 with probability 3/4. *)
Definition skew_p (t r : nat) : R :=
  match r with
  | O => 1 / 4
  | _ => 3 / 4
  end.

Definition skew_channel : nat -> nat -> xreal := finite_channel skew_p.

(** Two transmitted codewords with disjoint supports: codeword 0 is received
    as 0 or 1, codeword 1 as 2 or 3, each with probability 1/2. *)
Definition split_p (t r : nat) : R :=
  match t, r with
  | 0%nat, (0%nat | 1%nat) => 1 / 2
  | 1%nat, (2%nat | 3%nat) => 1 / 2
  | _, _ => 0
  end.

Definition split_channel : nat -> nat -> xreal := finite_channel split_p.

(** The binary symmetric channel with crossover probability 1/10. *)
Definition bsc_p (t r : nat) : R :=
  if Nat.eqb t r then 9 / 10 else 1 / 10.

Definition bsc_channel : nat -> nat -> xreal := finite_channel bsc_p.

(** The binary symmetric channel with crossover probability [eps]. *)
Definition bsc_eps_p (eps : R) (t r : nat) : R :=
  if Nat.eqb t r then 1 - eps else eps.

(** The Z-channel: codeword 0 is always received as 0, codeword 1 as 0 or
    as 1 with probability 1/2 each. *)
Definition z_p (t r : nat) : R :=
  match t, r with
  | 0%nat, 0%nat => 1
  | 0%nat, _ => 0
  | _, _ => 1 / 2
  end.


(** One transmitted codeword received as one of three codewords, each with
    probability 1/3. *)
Definition uniform3_p (t r : nat) : R := 1 / 3.

Definition uniform3_channel : nat -> nat -> xreal := finite_channel uniform3_p.

(** ** The statements of the specification on rates *)

(** Sections 4.4 and 8 of the specification, as written: the step returns a
    new distribution, finite, with no negative entry, that sums to 1 up to
    [tol]. *)
Definition baa_step_normalised_spec {CW : Type} (P : CW -> CW -> xreal) (tol : R)
    (transmitted received : list CW) (Q_old : list xreal) : Prop :=
  exists q_new,
    do_full_baa_step P transmitted received Q_old = Some (map XFin q_new) /\
    Forall (fun x => 0 <= x) q_new /\
    Rabs (Rsum q_new - 1) <= tol.

(** The normalisation as an invariant of the results: whatever the step
    returns is finite and sums to 1 up to [tol]. *)
Definition baa_step_result_sums_to_one {CW : Type} (P : CW -> CW -> xreal) (tol : R)
    (transmitted received : list CW) (Q_old : list xreal) : Prop :=
  forall Q_new,
    do_full_baa_step P transmitted received Q_old = Some Q_new ->
    exists q_new, Q_new = map XFin q_new /\ Rabs (Rsum q_new - 1) <= tol.



(** Section 4.3 of the specification, as written: the row-major form, fed
    with the log-denominators of the aggregator, and the dense form return
    the same finite value up to [tol]. *)
Definition rates_agree {CW : Type} (P : CW -> CW -> xreal) (tol : R)
    (transmitted received : list CW) (Q : list xreal) : Prop :=
  exists log_W_den r_row r_dense,
    compute_all_log_Wjk_den P transmitted received Q = Some log_W_den /\
    compute_bit_rate_efficient P transmitted received log_W_den Q = Some (XFin r_row) /\
    compute_rate P transmitted received Q = Some (XFin r_dense) /\
    Rabs (r_row - r_dense) <= tol.

Unset Implicit Arguments.

(** ** Undefined behaviour: lemmas *)

Lemma bind_Some {A B : Type} (m : option A) (k : A -> option B) (b : B) :
  bind m k = Some b <-> exists a, m = Some a /\ k a = Some b.
Proof.
  destruct m as [a|]; simpl; split.
  - intros H. exists a. auto.
  - intros [a' [E H]]. inversion E. subst. exact H.
  - discriminate.
  - intros [a' [E _]]. discriminate.
Qed.

Lemma Some_inj {A : Type} (a b : A) : Some a = Some b -> a = b.
Proof. intros H. inversion H. reflexivity. Qed.

Lemma XFin_inj (a b : R) : XFin a = XFin b -> a = b.
Proof. intros H. inversion H. reflexivity. Qed.

Lemma bind_intro {A B : Type} (m : option A) (a : A) (k : A -> option B)
    (r : option B) :
  m = Some a -> k a = r -> bind m k = r.
Proof. intros Hm Hk. rewrite Hm. exact Hk. Qed.

(** Lists two elements at a time, as the loop of [compute_all_log_Wjk_den]
    walks them. *)
Lemma list_pair_ind {A : Type} (Pr : list A -> Prop) :
  Pr [] ->
  (forall a, Pr [a]) ->
  (forall a b l, Pr l -> Pr (a :: b :: l)) ->
  forall l, Pr l.
Proof.
  intros H0 H1 H2.
  fix IH 1.
  intros [|a [|b l]].
  - exact H0.
  - apply H1.
  - apply H2. apply IH.
Qed.

(** ** The denominator aggregator, for every scalar type *)

Section Denominators.

Context {F : FloatOps}.
Variable CW : Type.
Variable P : CW -> CW -> Float.

Lemma inner_product_defined (r1 r2 : list Float) (init : Float) :
  (length r1 <= length r2)%nat ->
  exists d, inner_product r1 r2 init = Some d.
Proof.
  revert r2 init.
  induction r1 as [|x r1 IH]; intros r2 init Hlen; simpl.
  - exists init. reflexivity.
  - destruct r2 as [|y r2]; simpl in Hlen; [lia|].
    apply IH. lia.
Qed.

Lemma compute_Wjk_den_defined (tx : list CW) (rec : CW) (Q : list Float) :
  (length tx <= length Q)%nat ->
  exists d, compute_Wjk_den P tx rec Q = Some d.
Proof.
  intros Hlen. unfold compute_Wjk_den, compute_Pjk_col.
  apply inner_product_defined. rewrite length_map. exact Hlen.
Qed.

(** With one codeword left the loop reads [*(rec_iter + 1)] at [end()]. *)
Lemma log_Wjk_den_odd (tx rx : list CW) (Q : list Float) :
  Nat.odd (length rx) = true ->
  compute_all_log_Wjk_den P tx rx Q = None.
Proof.
  induction rx as [| a | a b rx IH] using list_pair_ind; intros Hodd.
  - discriminate.
  - simpl. destruct (compute_Wjk_den P tx a Q); reflexivity.
  - cbn [compute_all_log_Wjk_den].
    destruct (compute_Wjk_den P tx a Q); [|reflexivity].
    destruct (compute_Wjk_den P tx b Q); [|reflexivity].
    simpl. rewrite IH; [reflexivity|].
    simpl length in Hodd. rewrite Nat.odd_succ, Nat.even_succ in Hodd. exact Hodd.
Qed.

Lemma log_Wjk_den_even (tx rx : list CW) (Q : list Float) :
  Nat.even (length rx) = true ->
  (length tx <= length Q)%nat ->
  exists result,
    compute_all_log_Wjk_den P tx rx Q = Some result /\
    length result = length rx /\
    forall m, (2 * m + 1 < length rx)%nat -> pair_entry_at P tx rx Q result m.
Proof.
  intros Heven Hlen.
  induction rx as [| a | a b rx IH] using list_pair_ind.
  - exists []. simpl. repeat split; intros; lia.
  - discriminate.
  - destruct IH as [res [Hres [Hl Hpairs]]].
    { simpl length in Heven. rewrite Nat.even_succ, Nat.odd_succ in Heven. exact Heven. }
    destruct (compute_Wjk_den_defined tx a Q Hlen) as [d1 Hd1].
    destruct (compute_Wjk_den_defined tx b Q Hlen) as [d2 Hd2].
    exists (flog (fdiv (fadd d1 d2) ftwo) :: flog (fdiv (fadd d1 d2) ftwo) :: res).
    cbn [compute_all_log_Wjk_den]. rewrite Hd1, Hd2. simpl bind. rewrite Hres.
    split; [reflexivity|]. split; [simpl; lia|].
    intros [|m] Hm.
    + exists a, b, d1, d2. simpl. repeat split; assumption || reflexivity.
    + simpl length in Hm.
      destruct (Hpairs m) as [r1 [r2 [e1 [e2 [A [B [C [D [E G]]]]]]]]]; [lia|].
      exists r1, r2, e1, e2.
      replace (2 * S m)%nat with (S (S (2 * m))) by lia.
      replace (S (S (2 * m)) + 1)%nat with (S (S (2 * m + 1))) by lia.
      simpl nth_error. repeat split; assumption.
Qed.

Lemma log_Wjk_den_app (tx rx1 rx2 : list CW) (Q : list Float) :
  Nat.even (length rx1) = true ->
  compute_all_log_Wjk_den P tx (rx1 ++ rx2) Q =
  (r1 <- compute_all_log_Wjk_den P tx rx1 Q ;;
   r2 <- compute_all_log_Wjk_den P tx rx2 Q ;;
   Some (r1 ++ r2)).
Proof.
  induction rx1 as [| a | a b rx1 IH] using list_pair_ind; intros Heven.
  - simpl. destruct (compute_all_log_Wjk_den P tx rx2 Q); reflexivity.
  - discriminate.
  - change ((a :: b :: rx1) ++ rx2) with (a :: b :: (rx1 ++ rx2)).
    cbn [compute_all_log_Wjk_den].
    destruct (compute_Wjk_den P tx a Q); [|reflexivity].
    destruct (compute_Wjk_den P tx b Q); [|reflexivity].
    simpl bind. rewrite IH.
    + destruct (compute_all_log_Wjk_den P tx rx1 Q); [|reflexivity].
      simpl. destruct (compute_all_log_Wjk_den P tx rx2 Q); reflexivity.
    + simpl length in Heven. rewrite Nat.even_succ, Nat.odd_succ in Heven. exact Heven.
Qed.

End Denominators.

(** ** Evaluating on [xreal] *)

Arguments Rltb : simpl never.

Lemma Rltb_true (a b : R) : a < b -> Rltb a b = true.
Proof. intros H. unfold Rltb. destruct (Rlt_dec a b); [reflexivity | contradiction]. Qed.

Lemma Rltb_false (a b : R) : b <= a -> Rltb a b = false.
Proof. intros H. unfold Rltb. destruct (Rlt_dec a b); [lra | reflexivity]. Qed.

Lemma Rltb_spec (a b : R) : Rltb a b = true <-> a < b.
Proof.
  unfold Rltb. destruct (Rlt_dec a b); split; intros H; try reflexivity;
    try assumption; try discriminate; contradiction.
Qed.

Lemma r1em12_pos : 0 < r1em12.
Proof. unfold r1em12. apply Rinv_0_lt_compat. apply pow_lt. lra. Qed.

Ltac rconst := try unfold r1em12; try unfold r1em20; try unfold r1em30; try unfold r1em50.

Ltac rltb :=
  repeat match goal with
         | |- context [Rltb ?a ?b] =>
             first [ rewrite (Rltb_true a b) by (rconst; lra)
                   | rewrite (Rltb_false a b) by (rconst; lra) ]
         end.

Ltac xeval := repeat (progress (cbn; try unfold xscale_inf; rltb)).

(** ** The denominator aggregator: the claims *)

Section DenominatorClaims.

Context {F : FloatOps}.
Variable CW : Type.
Variable P : CW -> CW -> Float.

(** C10. [compute_all_log_Wjk_den] is defined only on a received sequence of
    even length: on an odd length the loop reads past the end, which has no
    result; on an even length (with [Q_i] covering [transmitted]) it returns
    one entry per received codeword and the two entries of every pair
    [2m], [2m+1] are the same value. *)
Theorem log_Wjk_den_stride_two (tx rx : list CW) (Q : list Float) :
  (Nat.odd (length rx) = true ->
   compute_all_log_Wjk_den P tx rx Q = None) /\
  (Nat.even (length rx) = true ->
   (length tx <= length Q)%nat ->
   exists result,
     compute_all_log_Wjk_den P tx rx Q = Some result /\
     length result = length rx /\
     forall m, (2 * m + 1 < length rx)%nat ->
       exists entry,
         nth_error result (2 * m) = Some entry /\
         nth_error result (2 * m + 1) = Some entry).
Proof.
  split.
  - apply log_Wjk_den_odd.
  - intros Heven Hlen.
    destruct (log_Wjk_den_even CW P tx rx Q Heven Hlen) as [res [Hres [Hl Hp]]].
    exists res. repeat split; try assumption.
    intros m Hm.
    destruct (Hp m Hm) as [r1 [r2 [d1 [d2 [_ [_ [_ [_ [E1 E2]]]]]]]]].
    eexists. split; eassumption.
Qed.

(** C1, as the code has it: on a received sequence of even length, with
    [len(Q) == len(transmitted)], the result has one entry per received
    codeword, and the entries [2m] and [2m+1] are both the log of the mean of
    the two marginals [W_2m] and [W_2m+1]. *)
Theorem log_Wjk_den_pair_average (tx rx : list CW) (Q : list Float) :
  Nat.even (length rx) = true ->
  length Q = length tx ->
  exists result,
    compute_all_log_Wjk_den P tx rx Q = Some result /\
    length result = length rx /\
    forall m, (2 * m + 1 < length rx)%nat -> pair_entry_at P tx rx Q result m.
Proof.
  intros Heven Hlen. apply log_Wjk_den_even; [exact Heven | lia].
Qed.

(** C5, as the code has it: when every sub-range has even length, the calls
    on the sub-ranges, concatenated in order, are the call on the whole
    received sequence (the same entries, and undefined together). *)
Theorem log_Wjk_den_partition_even (tx : list CW) (subranges : list (list CW))
    (Q : list Float) :
  Forall (fun sub => Nat.even (length sub) = true) subranges ->
  compute_all_log_Wjk_den P tx (concat subranges) Q =
  partitioned_log_denominators P tx subranges Q.
Proof.
  unfold partitioned_log_denominators.
  induction 1 as [|sub subs Hsub Hsubs IH]; [reflexivity|].
  simpl concat. rewrite log_Wjk_den_app by exact Hsub.
  rewrite IH. simpl mapM.
  destruct (compute_all_log_Wjk_den P tx sub Q); [|reflexivity].
  simpl.
  destruct (mapM (fun sub0 => compute_all_log_Wjk_den P tx sub0 Q) subs);
    reflexivity.
Qed.

End DenominatorClaims.

Lemma log_Wjk_den_stride_two_witness :
  compute_all_log_Wjk_den skew_channel [0%nat] [0%nat] [XFin 1] = None /\
  exists result,
    compute_all_log_Wjk_den skew_channel [0%nat] [0%nat; 1%nat] [XFin 1] = Some result /\
    length result = 2%nat /\
    forall m, (2 * m + 1 < 2)%nat ->
      exists entry,
        nth_error result (2 * m) = Some entry /\
        nth_error result (2 * m + 1) = Some entry.
Proof.
  split.
  - apply (proj1 (log_Wjk_den_stride_two (F := xreal_ops) nat skew_channel [0%nat] [0%nat] [XFin 1])).
    reflexivity.
  - apply (proj2 (log_Wjk_den_stride_two (F := xreal_ops) nat skew_channel [0%nat] [0%nat; 1%nat] [XFin 1])).
    + reflexivity.
    + simpl. lia.
Defined.

Lemma log_Wjk_den_pair_average_witness :
  exists result,
    compute_all_log_Wjk_den skew_channel [0%nat] [0%nat; 1%nat] [XFin 1] = Some result /\
    length result = 2%nat /\
    forall m, (2 * m + 1 < 2)%nat ->
      pair_entry_at skew_channel [0%nat] [0%nat; 1%nat] [XFin 1] result m.
Proof.
  apply (log_Wjk_den_pair_average (F := xreal_ops) nat skew_channel [0%nat] [0%nat; 1%nat] [XFin 1]);
    reflexivity.
Defined.

(** C1 as written fails: with marginals 1/4 and 3/4 both entries are
    [log (1/2)], not [log (1/4)] and [log (3/4)]. *)
Lemma log_denominators_spec_counterexample :
  ~ log_denominators_spec skew_channel [0%nat] [0%nat; 1%nat] [XFin 1].
Proof.
  intros [res [Hres [_ Hj]]].
  specialize (Hj 0%nat 0%nat (XFin (0 + 1 / 4 * 1)) eq_refl eq_refl).
  revert Hres Hj. xeval. intros Hres. inversion Hres; subst res.
  cbn. intros Hj. inversion Hj as [Hln].
  apply ln_inv in Hln; lra.
Qed.

Lemma log_Wjk_den_partition_even_witness :
  compute_all_log_Wjk_den skew_channel [0%nat]
    (concat [[0%nat; 1%nat]; [1%nat; 0%nat]]) [XFin 1] =
  partitioned_log_denominators skew_channel [0%nat]
    [[0%nat; 1%nat]; [1%nat; 0%nat]] [XFin 1].
Proof.
  apply (log_Wjk_den_partition_even (F := xreal_ops) nat skew_channel [0%nat]
           [[0%nat; 1%nat]; [1%nat; 0%nat]] [XFin 1]).
  repeat constructor.
Defined.

(** C5 as written fails: split into two sub-ranges of one codeword each, the
    two calls have no result, while the call on the whole sequence has. *)
Lemma log_Wjk_den_partition_counterexample :
  compute_all_log_Wjk_den skew_channel [0%nat] (concat [[0%nat]; [1%nat]]) [XFin 1] <>
  partitioned_log_denominators skew_channel [0%nat] [[0%nat]; [1%nat]] [XFin 1].
Proof.
  cbn. discriminate.
Qed.

(** ** The log-alphas, for every scalar type *)

Section LogAlpha.

Context {F : FloatOps}.
Variable CW : Type.
Variable P : CW -> CW -> Float.

(** Adding the zero of the skipped terms changes nothing. *)
Hypothesis fadd_zero_r : forall x : Float, fadd x fzero = x.

Lemma log_alpha_loop_spec (log_Q_k : Float) (trans : CW) (rx : list CW)
    (lw : list Float) (acc : Float) :
  (length rx <= length lw)%nat ->
  log_alpha_loop log_Q_k (compute_Pjk_row P trans rx) lw acc =
  Some (fold_left fadd
          (map (fun rd => log_alpha_term log_Q_k (P trans (fst rd)) (snd rd))
               (combine rx lw))
          acc).
Proof.
  revert lw acc.
  induction rx as [|rec rx IH]; intros lw acc Hlen; [reflexivity|].
  destruct lw as [|log_den lw]; simpl in Hlen; [lia|].
  simpl. unfold log_alpha_term at 2.
  destruct (flt (P trans rec) f1em12).
  - rewrite fadd_zero_r. apply IH. lia.
  - apply IH. lia.
Qed.

Lemma compute_all_log_alpha_k_nth (tx rx : list CW) (Q lw : list Float) :
  (length tx <= length Q)%nat ->
  (length rx <= length lw)%nat ->
  exists log_alphas,
    compute_all_log_alpha_k P tx rx Q lw = Some log_alphas /\
    length log_alphas = length tx /\
    forall i trans Q_k,
      nth_error tx i = Some trans ->
      nth_error Q i = Some Q_k ->
      nth_error log_alphas i = Some (log_alpha_spec P trans rx Q_k lw).
Proof.
  intros HQ Hlw. revert Q HQ.
  induction tx as [|t tx IH]; intros Q HQ.
  - exists []. repeat split. intros [|i] trans Q_k H; discriminate.
  - destruct Q as [|q Q]; simpl in HQ; [lia|].
    destruct (IH Q) as [las [Hlas [Hlen Hnth]]]; [lia|].
    exists (log_alpha_spec P t rx q lw :: las).
    cbn [compute_all_log_alpha_k]. unfold compute_log_alpha_k.
    rewrite log_alpha_loop_spec by exact Hlw.
    simpl bind. rewrite Hlas. simpl bind.
    split; [reflexivity|]. split; [simpl; lia|].
    intros [|i] trans Q_k Ht HQk; simpl in *.
    + inversion Ht; inversion HQk; subst. reflexivity.
    + eapply Hnth; eassumption.
Qed.

(** C6. The log-alpha of a transmitted symbol is the sum, over the received
    symbols in their order, of [P * (log Q + log P - log_W_den[j])], a term
    with [P < 1e-12] being skipped, which is the same as adding zero for it;
    [compute_all_log_alpha_k] returns this value for every transmitted
    symbol, with its own prior. *)
Theorem log_alpha_is_thresholded_sum (tx rx : list CW) (Q lw : list Float) :
  (length tx <= length Q)%nat ->
  (length rx <= length lw)%nat ->
  (forall trans Q_k,
     compute_log_alpha_k P trans rx Q_k lw = Some (log_alpha_spec P trans rx Q_k lw)) /\
  (forall trans rec Q_k log_den,
     flt (P trans rec) f1em12 = true ->
     log_alpha_term (flog Q_k) (P trans rec) log_den = fzero) /\
  exists log_alphas,
    compute_all_log_alpha_k P tx rx Q lw = Some log_alphas /\
    length log_alphas = length tx /\
    forall i trans Q_k,
      nth_error tx i = Some trans ->
      nth_error Q i = Some Q_k ->
      nth_error log_alphas i = Some (log_alpha_spec P trans rx Q_k lw).
Proof.
  intros HQ Hlw. split; [|split].
  - intros trans Q_k. unfold compute_log_alpha_k, log_alpha_spec.
    apply log_alpha_loop_spec. exact Hlw.
  - intros trans rec Q_k log_den Hlt. unfold log_alpha_term.
    rewrite Hlt. reflexivity.
  - apply compute_all_log_alpha_k_nth; assumption.
Qed.

End LogAlpha.

Lemma xadd_zero_r (x : xreal) : xadd x (XFin 0) = x.
Proof. destruct x; simpl; try reflexivity. f_equal. lra. Qed.

Lemma log_alpha_is_thresholded_sum_witness :
  (forall trans Q_k,
     compute_log_alpha_k skew_channel trans [0%nat; 1%nat] Q_k [XFin 0; XFin 0] =
     Some (log_alpha_spec skew_channel trans [0%nat; 1%nat] Q_k [XFin 0; XFin 0])) /\
  (forall trans rec Q_k log_den,
     flt (skew_channel trans rec) f1em12 = true ->
     log_alpha_term (flog Q_k) (skew_channel trans rec) log_den = fzero) /\
  exists log_alphas,
    compute_all_log_alpha_k skew_channel [0%nat] [0%nat; 1%nat] [XFin 1] [XFin 0; XFin 0]
      = Some log_alphas /\
    length log_alphas = 1%nat /\
    forall i trans Q_k,
      nth_error [0%nat] i = Some trans ->
      nth_error [XFin 1] i = Some Q_k ->
      nth_error log_alphas i =
      Some (log_alpha_spec skew_channel trans [0%nat; 1%nat] Q_k [XFin 0; XFin 0]).
Proof.
  apply (log_alpha_is_thresholded_sum (F := xreal_ops) nat skew_channel xadd_zero_r
           [0%nat] [0%nat; 1%nat] [XFin 1] [XFin 0; XFin 0]); simpl; lia.
Defined.

(** ** The code on finite values *)

Lemma xlog_pos (a : R) : 0 < a -> xlog (XFin a) = XFin (ln a).
Proof. intros H. unfold xlog. rewrite Rltb_true by exact H. reflexivity. Qed.

Lemma xdiv_pos (a b : R) : 0 < b -> xdiv (XFin a) (XFin b) = XFin (a / b).
Proof.
  intros H. unfold xdiv. rewrite Rltb_false by lra. rewrite Rltb_true by exact H.
  reflexivity.
Qed.

Lemma r1em20_pos : 0 < r1em20.
Proof. unfold r1em20. lra. Qed.

Lemma r1em30_pos : 0 < r1em30.
Proof. unfold r1em30. lra. Qed.

Lemma r1em50_pos : 0 < r1em50.
Proof. unfold r1em50. lra. Qed.

Lemma Rltb_false_le (a b : R) : Rltb a b = false -> b <= a.
Proof.
  intros H. destruct (Rle_or_lt b a) as [Hle|Hlt]; [exact Hle|].
  rewrite (Rltb_true a b Hlt) in H. discriminate.
Qed.

Lemma fold_left_Rplus_acc (l : list R) (acc : R) :
  fold_left Rplus l acc = acc + fold_left Rplus l 0.
Proof.
  revert acc. induction l as [|x l IH]; intros acc; simpl.
  - lra.
  - rewrite IH. rewrite (IH (0 + x)). lra.
Qed.

Lemma Rsum_cons (x : R) (l : list R) : Rsum (x :: l) = x + Rsum l.
Proof. unfold Rsum. simpl. rewrite fold_left_Rplus_acc. lra. Qed.

Lemma Rsum_app (l1 l2 : list R) : Rsum (l1 ++ l2) = Rsum l1 + Rsum l2.
Proof.
  induction l1 as [|x l1 IH]; simpl.
  - unfold Rsum at 2. simpl. lra.
  - rewrite !Rsum_cons, IH. lra.
Qed.

Lemma Rsum_nil : Rsum [] = 0.
Proof. reflexivity. Qed.

Section ExactArithmetic.

Variable CW : Type.
Variable p : CW -> CW -> R.

Let P := finite_channel p.

Lemma inner_product_real (tx : list CW) (rec : CW) (q : list R) (acc : R) :
  (length tx <= length q)%nat ->
  inner_product (compute_Pjk_col P tx rec) (map XFin q) (XFin acc) =
  Some (XFin (fold_left Rplus
                (map (fun tq => p (fst tq) rec * snd tq) (combine tx q)) acc)).
Proof.
  revert q acc.
  induction tx as [|t tx IH]; intros q acc Hlen; [reflexivity|].
  destruct q as [|qk q]; simpl in Hlen; [lia|].
  simpl. apply IH. lia.
Qed.

Lemma compute_Wjk_den_real (tx : list CW) (rec : CW) (q : list R) :
  (length tx <= length q)%nat ->
  compute_Wjk_den P tx rec (map XFin q) = Some (XFin (marginal p tx q rec)).
Proof.
  intros Hlen. unfold compute_Wjk_den. apply (inner_product_real tx rec q 0 Hlen).
Qed.

Lemma log_Wjk_den_real (tx rx : list CW) (q : list R) :
  Nat.even (length rx) = true ->
  (length tx <= length q)%nat ->
  pair_marginals_positive p tx q rx ->
  compute_all_log_Wjk_den P tx rx (map XFin q) =
  Some (map XFin (log_den_real p tx q rx)).
Proof.
  intros Heven Hlen.
  induction rx as [| a | a b rx IH] using list_pair_ind; intros Hpos.
  - reflexivity.
  - discriminate.
  - destruct Hpos as [Hab Hpos].
    cbn [compute_all_log_Wjk_den log_den_real map].
    rewrite !compute_Wjk_den_real by exact Hlen.
    cbn [bind]. rewrite IH.
    + cbn [bind fadd fdiv flog ftwo xreal_ops xadd].
      rewrite xdiv_pos by lra. rewrite xlog_pos by lra. reflexivity.
    + simpl length in Heven. rewrite Nat.even_succ, Nat.odd_succ in Heven. exact Heven.
    + exact Hpos.
Qed.

Lemma log_den_real_length (tx rx : list CW) (q : list R) :
  Nat.even (length rx) = true ->
  length (log_den_real p tx q rx) = length rx.
Proof.
  induction rx as [| a | a b rx IH] using list_pair_ind; intros Heven.
  - reflexivity.
  - discriminate.
  - simpl. rewrite IH; [reflexivity|].
    simpl length in Heven. rewrite Nat.even_succ, Nat.odd_succ in Heven. exact Heven.
Qed.

(** The loop of [compute_log_alpha_k] with a positive prior and finite
    log-denominators. *)
Lemma log_alpha_loop_real (t : CW) (rx : list CW) (qk : R) (lw : list R) (acc : R) :
  0 < qk ->
  (length rx <= length lw)%nat ->
  log_alpha_loop (XFin (ln qk)) (compute_Pjk_row P t rx) (map XFin lw) (XFin acc) =
  Some (XFin (fold_left Rplus
                (map (fun rw => alpha_contrib qk (p t (fst rw)) (snd rw))
                     (combine rx lw)) acc)).
Proof.
  intros Hq. revert lw acc.
  induction rx as [|rec rx IH]; intros lw acc Hlen; [reflexivity|].
  destruct lw as [|w lw]; simpl in Hlen; [lia|].
  cbn [compute_Pjk_row map log_alpha_loop combine fold_left fst snd].
  change (P t rec) with (XFin (p t rec)). cbn [flt f1em12 xreal_ops xlt].
  unfold alpha_contrib at 2.
  destruct (Rltb (p t rec) r1em12) eqn:Hlt.
  - rewrite Rplus_0_r. apply IH. lia.
  - apply Rltb_false_le in Hlt. pose proof r1em12_pos.
    cbn [fadd fmul fsub flog xreal_ops].
    rewrite xlog_pos by lra. cbn [xadd xsub xmul].
    apply IH. lia.
Qed.

Lemma compute_log_alpha_k_real (t : CW) (rx : list CW) (qk : R) (lw : list R) :
  0 < qk ->
  (length rx <= length lw)%nat ->
  compute_log_alpha_k P t rx (XFin qk) (map XFin lw) =
  Some (XFin (log_alpha_real p t rx qk lw)).
Proof.
  intros Hq Hlen. unfold compute_log_alpha_k.
  cbn [flog fzero xreal_ops]. rewrite xlog_pos by exact Hq.
  apply log_alpha_loop_real; assumption.
Qed.

(** The inner loop of [compute_bit_rate_efficient] on finite values. *)
Lemma bit_rate_row_real (t : CW) (rx : list CW) (qk : R) (lw : list R) (acc : R) :
  (length rx <= length lw)%nat ->
  bit_rate_row (XFin qk) (compute_Pjk_row P t rx) (map XFin lw) (XFin acc) =
  Some (XFin (fold_left Rplus
                (map (fun rw => eff_contrib qk (p t (fst rw)) (snd rw))
                     (combine rx lw)) acc)).
Proof.
  revert lw acc.
  induction rx as [|rec rx IH]; intros lw acc Hlen; [reflexivity|].
  destruct lw as [|w lw]; simpl in Hlen; [lia|].
  cbn [compute_Pjk_row map bit_rate_row combine fold_left fst snd].
  change (P t rec) with (XFin (p t rec)). cbn [flt f1em20 xreal_ops xlt].
  unfold eff_contrib at 2.
  destruct (Rltb (p t rec) r1em20) eqn:Hlt.
  - rewrite Rplus_0_r. apply IH. lia.
  - apply Rltb_false_le in Hlt. pose proof r1em20_pos.
    cbn [fadd fmul fsub flog xreal_ops].
    rewrite xlog_pos by lra. cbn [xadd xsub xmul].
    apply IH. lia.
Qed.

Lemma bit_rate_loop_real (tx rx : list CW) (lw q : list R) (acc : R) :
  (length tx <= length q)%nat ->
  (length rx <= length lw)%nat ->
  bit_rate_loop P tx rx (map XFin lw) (map XFin q) (XFin acc) =
  Some (XFin (fold_left Rplus
                (flat_map
                   (fun tq => map (fun rw => eff_contrib (snd tq) (p (fst tq) (fst rw)) (snd rw))
                                  (combine rx lw))
                   (combine tx q)) acc)).
Proof.
  intros Hq Hlw. revert q acc Hq.
  induction tx as [|t tx IH]; intros q acc Hq; [reflexivity|].
  destruct q as [|qk q]; simpl in Hq; [lia|].
  cbn [bit_rate_loop map combine flat_map fst snd].
  rewrite bit_rate_row_real by exact Hlw. cbn [bind].
  rewrite fold_left_app. apply IH. lia.
Qed.

Lemma compute_bit_rate_efficient_real (tx rx : list CW) (lw q : list R) :
  length tx = length q ->
  (length rx <= length lw)%nat ->
  compute_bit_rate_efficient P tx rx (map XFin lw) (map XFin q) =
  Some (XFin (eff_rate_real p tx rx lw q)).
Proof.
  intros Hq Hlw. unfold compute_bit_rate_efficient.
  rewrite length_map, Hq, Nat.eqb_refl.
  apply bit_rate_loop_real; [lia | exact Hlw].
Qed.

Lemma denominator_loop_real (tx : list CW) (rec : CW) (q : list R) (acc : R) :
  (length tx <= length q)%nat ->
  denominator_loop (map (fun trans => P trans rec) tx) (map XFin q) (XFin acc) =
  Some (XFin (fold_left Rplus
                (map (fun tq => p (fst tq) rec * snd tq) (combine tx q)) acc)).
Proof.
  revert q acc.
  induction tx as [|t tx IH]; intros q acc Hlen; [reflexivity|].
  destruct q as [|qk q]; simpl in Hlen; [lia|].
  simpl. apply IH. lia.
Qed.

Lemma denominators_real (tx rx : list CW) (q : list R) :
  (length tx <= length q)%nat ->
  denominators P tx rx (map XFin q) = Some (map XFin (map (marginal p tx q) rx)).
Proof.
  intros Hlen. unfold denominators. cbn [fzero xreal_ops].
  induction rx as [|rec rx IH]; [reflexivity|].
  cbn [mapM map].
  rewrite denominator_loop_real by exact Hlen. cbn [bind].
  rewrite IH. reflexivity.
Qed.

Lemma floor50_pos (d : R) : 0 < floor50 d.
Proof.
  unfold floor50. pose proof r1em50_pos.
  destruct (Rltb d r1em50) eqn:E; [lra|].
  apply Rltb_false_le in E. lra.
Qed.

Lemma floor50_idem (d : R) : floor50 (floor50 d) = floor50 d.
Proof.
  unfold floor50. destruct (Rltb d r1em50) eqn:E.
  - rewrite Rltb_false by lra. reflexivity.
  - rewrite E. reflexivity.
Qed.

Lemma den_state_floor (w d : R) : den_state w d -> floor50 d = floor50 w.
Proof. intros [H|H]; subst; [reflexivity | apply floor50_idem]. Qed.

Lemma nth_error_map_middle {A B : Type} (f : A -> B) (pre suf : list A) (x : A) :
  nth_error (map f (pre ++ x :: suf)) (length pre) = Some (f x).
Proof.
  rewrite nth_error_map, nth_error_app2 by lia.
  rewrite Nat.sub_diag. reflexivity.
Qed.

Lemma set_nth_map_middle {A B : Type} (f : A -> B) (pre suf : list A) (x y : A) :
  set_nth (map f (pre ++ x :: suf)) (length pre) (f y) = map f (pre ++ y :: suf).
Proof.
  induction pre as [|a pre IH]; simpl; [reflexivity|].
  rewrite IH. reflexivity.
Qed.

(** Lines 165 to 168 on finite values: the stored denominator becomes its
    floored value. *)
Lemma clamp_denominator_real (pre suf : list R) (d : R) :
  clamp_denominator (map XFin (pre ++ d :: suf)) (length pre) =
  Some (map XFin (pre ++ floor50 d :: suf)).
Proof.
  unfold clamp_denominator. rewrite nth_error_map_middle. cbn [bind].
  cbn [fisnan flt f1em50 xreal_ops xisnan xlt orb]. unfold floor50.
  destruct (Rltb d r1em50).
  - f_equal. apply (set_nth_map_middle XFin pre suf d r1em50).
  - reflexivity.
Qed.

Variable W : CW -> R.

(** The loop over [j] of [compute_rate] on finite values: every term reads
    the floored marginal, whatever the loop has overwritten before. *)
Lemma rate_row_real (t : CW) (qv : list R) (k : nat) (qk : R) :
  nth_error qv k = Some qk ->
  forall (rxs : list CW) (dpre dsuf : list R) (acc : R),
    Forall2 (fun rec d => den_state (W rec) d) rxs dsuf ->
    exists dsuf',
      rate_row (map XFin qv) k (map (fun rec => P t rec) rxs) (length dpre)
        (map XFin (dpre ++ dsuf), XFin acc) =
      Some (map XFin (dpre ++ dsuf'),
            XFin (fold_left Rplus
                    (map (fun rec => dense_contrib qk (p t rec) (W rec)) rxs) acc)) /\
      Forall2 (fun rec d => den_state (W rec) d) rxs dsuf'.
Proof.
  intros Hqk rxs.
  induction rxs as [|rec rxs IH]; intros dpre dsuf acc Hst.
  - inversion Hst; subst. exists []. split; [reflexivity | constructor].
  - inversion Hst as [|rec' d rxs' dsuf0 Hd Hrest]; subst.
    cbn [map rate_row fold_left].
    change (P t rec) with (XFin (p t rec)). cbn [flt f1em30 xreal_ops xlt].
    unfold dense_contrib at 2.
    destruct (Rltb (p t rec) r1em30) eqn:Hlt.
    + rewrite Rplus_0_r.
      replace (S (length dpre)) with (length (dpre ++ [d])) by (rewrite length_app; simpl; lia).
      replace (dpre ++ d :: dsuf0) with ((dpre ++ [d]) ++ dsuf0)
        by (rewrite <- app_assoc; reflexivity).
      destruct (IH (dpre ++ [d]) dsuf0 acc Hrest) as [dsuf' [Hrun Hst']].
      exists (d :: dsuf'). rewrite Hrun.
      rewrite <- app_assoc. split; [reflexivity|]. constructor; assumption.
    + apply Rltb_false_le in Hlt. pose proof r1em30_pos as H30.
      pose proof (floor50_pos d) as Hfl.
      cbn [fst snd].
      rewrite clamp_denominator_real. cbn [bind].
      rewrite nth_error_map_middle. cbn [bind].
      rewrite nth_error_map, Hqk. cbn [option_map bind].
      cbn [fadd fmul fdiv flog xreal_ops xmul xadd].
      rewrite xdiv_pos by exact Hfl.
      rewrite xlog_pos by (apply Rdiv_lt_0_compat; lra).
      cbn [xmul xadd].
      replace (S (length dpre)) with (length (dpre ++ [floor50 d]))
        by (rewrite length_app; simpl; lia).
      replace (dpre ++ floor50 d :: dsuf0) with ((dpre ++ [floor50 d]) ++ dsuf0)
        by (rewrite <- app_assoc; reflexivity).
      destruct (IH (dpre ++ [floor50 d]) dsuf0
                  (acc + qk * p t rec * ln (p t rec / floor50 d)) Hrest)
        as [dsuf' [Hrun Hst']].
      exists (floor50 d :: dsuf'). split.
      * etransitivity; [exact Hrun|].
        rewrite <- app_assoc. rewrite (den_state_floor _ _ Hd). reflexivity.
      * constructor; [|assumption].
        right. apply den_state_floor. exact Hd.
Qed.

(** The loop over [k] of [compute_rate] on finite values. *)
Lemma rate_loop_real (rx : list CW) (tsuf : list CW) :
  forall (tpre : list CW) (qpre qsuf : list R) (dv : list R) (acc : R),
    length qpre = length tpre ->
    (length tsuf <= length qsuf)%nat ->
    Forall2 (fun rec d => den_state (W rec) d) rx dv ->
    exists dv',
      rate_loop (map XFin (qpre ++ qsuf)) (prob_table P tsuf rx) (length tpre)
        (map XFin dv, XFin acc) =
      Some (map XFin dv',
            XFin (fold_left Rplus
                    (flat_map
                       (fun tq => map (fun rec => dense_contrib (snd tq) (p (fst tq) rec) (W rec)) rx)
                       (combine tsuf qsuf)) acc)) /\
      Forall2 (fun rec d => den_state (W rec) d) rx dv'.
Proof.
  induction tsuf as [|t tsuf IH]; intros tpre qpre qsuf dv acc Hpre Hsuf Hst.
  - exists dv. split; [reflexivity | exact Hst].
  - destruct qsuf as [|qk qsuf]; simpl in Hsuf; [lia|].
    cbn [prob_table map rate_loop combine flat_map fst snd].
    assert (Hqk : nth_error (qpre ++ qk :: qsuf) (length tpre) = Some qk).
    { rewrite nth_error_app2 by lia. rewrite Hpre, Nat.sub_diag. reflexivity. }
    destruct (rate_row_real t (qpre ++ qk :: qsuf) (length tpre) qk Hqk rx [] dv acc Hst)
      as [dv1 [Hrow Hst1]].
    cbn [length app] in Hrow.
    replace (S (length tpre)) with (length (tpre ++ [t])) by (rewrite length_app; simpl; lia).
    replace (qpre ++ qk :: qsuf) with ((qpre ++ [qk]) ++ qsuf) in *
      by (rewrite <- app_assoc; reflexivity).
    destruct (IH (tpre ++ [t]) (qpre ++ [qk]) qsuf dv1
                (fold_left Rplus
                   (map (fun rec => dense_contrib qk (p t rec) (W rec)) rx) acc))
      as [dv' [Hloop Hst']].
    + rewrite !length_app. simpl. lia.
    + lia.
    + exact Hst1.
    + exists dv'. split; [|exact Hst'].
      eapply bind_intro; [exact Hrow|].
      rewrite fold_left_app. exact Hloop.
Qed.

End ExactArithmetic.

(** [compute_rate] on finite values. *)
Lemma compute_rate_real (CW : Type) (p : CW -> CW -> R) (tx rx : list CW) (q : list R) :
  (length tx <= length q)%nat ->
  compute_rate (finite_channel p) tx rx (map XFin q) =
  Some (XFin (dense_rate_real p tx rx q)).
Proof.
  intros Hlen. unfold compute_rate.
  rewrite denominators_real by exact Hlen. cbn [bind].
  destruct (rate_loop_real CW p (marginal p tx q) rx tx [] [] q
              (map (marginal p tx q) rx) 0) as [dv' [Hloop _]].
  - reflexivity.
  - exact Hlen.
  - clear. induction rx as [|rec rx IH]; constructor; [left; reflexivity | exact IH].
  - eapply bind_intro; [exact Hloop|]. reflexivity.
Qed.

(** ** Logarithms *)

Lemma ln_le_minus_1 (x : R) : 0 < x -> ln x <= x - 1.
Proof.
  intros Hx. pose proof (exp_ineq1_le (ln x)) as H.
  rewrite exp_ln in H by exact Hx. lra.
Qed.

Lemma ln_ge_1_minus_inv (x : R) : 0 < x -> 1 - / x <= ln x.
Proof.
  intros Hx.
  assert (Hi : 0 < / x) by (apply Rinv_0_lt_compat; exact Hx).
  pose proof (ln_le_minus_1 (/ x) Hi) as H.
  rewrite ln_Rinv in H by exact Hx. lra.
Qed.

Lemma ln_div (x y : R) : 0 < x -> 0 < y -> ln (x / y) = ln x - ln y.
Proof.
  intros Hx Hy. unfold Rdiv.
  rewrite ln_mult by (try apply Rinv_0_lt_compat; assumption).
  rewrite ln_Rinv by exact Hy. lra.
Qed.

(** ** The two forms of the rate *)

Lemma skew_row_major_rate_value :
  3 / 4 * ln (3 / 4) + 1 / 4 * ln (1 / 4) - ln (1 / 2) > 1 / 10.
Proof.
  assert (H4 : ln (1 / 4) = 2 * ln (1 / 2)).
  { replace (1 / 4) with ((1 / 2) * (1 / 2)) by lra.
    rewrite ln_mult by lra. lra. }
  assert (H3 : 3 * ln (3 / 4) = ln (27 / 64)).
  { replace (27 / 64) with ((3 / 4) * ((3 / 4) * (3 / 4))) by lra.
    rewrite !ln_mult by lra. lra. }
  assert (H27 : ln (27 / 64) = ln (27 / 16) + ln (1 / 4)).
  { replace (27 / 64) with ((27 / 16) * (1 / 4)) by lra.
    rewrite ln_mult by lra. reflexivity. }
  pose proof (ln_ge_1_minus_inv (27 / 16)) as Hb.
  assert (/ (27 / 16) = 16 / 27) by (field).
  lra.
Qed.

(** C2 as written fails: on the channel with marginals 1/4 and 3/4 the dense
    form returns 0 and the row-major form, which reads the mean 1/2 of the
    pair as the denominator of both symbols, returns more than 1/10. *)
Lemma skew_dense_rate_value :
  dense_rate_real skew_p [0%nat] [0%nat; 1%nat] [1] = 0.
Proof.
  unfold dense_rate_real, dense_contrib, floor50, marginal, Rsum, skew_p.
  cbn. rltb.
  replace (1 / 4 / (0 + 1 / 4 * 1)) with 1 by lra.
  replace (3 / 4 / (0 + 3 / 4 * 1)) with 1 by lra.
  rewrite ln_1. lra.
Qed.

Lemma skew_row_major_rate :
  1 / 10 <
  eff_rate_real skew_p [0%nat] [0%nat; 1%nat]
    (log_den_real skew_p [0%nat] [1] [0%nat; 1%nat]) [1].
Proof.
  unfold eff_rate_real, eff_contrib, log_den_real, marginal, Rsum, skew_p.
  cbn. rltb.
  replace ((0 + 1 / 4 * 1 + (0 + 3 / 4 * 1)) / 2) with (1 / 2) by lra.
  pose proof skew_row_major_rate_value. lra.
Qed.

Lemma rates_agree_counterexample :
  compute_rate skew_channel [0%nat] [0%nat; 1%nat] [XFin 1] = Some (XFin 0) /\
  ~ rates_agree skew_channel (1 / 10) [0%nat] [0%nat; 1%nat] [XFin 1].
Proof.
  change [XFin 1] with (map XFin [1]). unfold skew_channel. split.
  - rewrite compute_rate_real by (simpl; lia). rewrite skew_dense_rate_value. reflexivity.
  - intros [lw [r1 [r2 [Hlw [Hrow [Hdense Htol]]]]]].
    rewrite log_Wjk_den_real in Hlw;
      [ | reflexivity | simpl; lia
        | unfold pair_marginals_positive, marginal, Rsum; simpl; lra ].
    apply Some_inj in Hlw; subst lw.
    rewrite compute_bit_rate_efficient_real in Hrow; [ | reflexivity | simpl; lia ].
    rewrite compute_rate_real in Hdense by (simpl; lia).
    apply Some_inj, XFin_inj in Hrow. apply Some_inj, XFin_inj in Hdense. subst r1 r2.
    rewrite skew_dense_rate_value in Htol. pose proof skew_row_major_rate as Hv.
    rewrite Rabs_right in Htol; lra.
Qed.

(** The log-denominators when the two symbols of every pair have the same
    marginal. *)
Lemma log_den_real_equal_pairs (CW : Type) (p : CW -> CW -> R) (tx rx : list CW)
    (q : list R) :
  Nat.even (length rx) = true ->
  pair_marginals_equal p tx q rx ->
  log_den_real p tx q rx = map (fun rec => ln (marginal p tx q rec)) rx.
Proof.
  induction rx as [| a | a b rx IH] using list_pair_ind; intros Heven Heq.
  - reflexivity.
  - discriminate.
  - destruct Heq as [Hab Heq].
    cbn [log_den_real map]. rewrite IH.
    + rewrite <- Hab.
      replace ((marginal p tx q a + marginal p tx q a) / 2)
        with (marginal p tx q a) by lra.
      reflexivity.
    + simpl length in Heven. rewrite Nat.even_succ, Nat.odd_succ in Heven. exact Heven.
    + exact Heq.
Qed.

Lemma pair_marginals_positive_of_floor (CW : Type) (p : CW -> CW -> R)
    (tx rx : list CW) (q : list R) :
  (forall rec, In rec rx -> r1em50 <= marginal p tx q rec) ->
  pair_marginals_positive p tx q rx.
Proof.
  pose proof r1em50_pos as H50.
  induction rx as [| a | a b rx IH] using list_pair_ind; intros Hfl; simpl; auto.
  split.
  - pose proof (Hfl a (or_introl eq_refl)).
    pose proof (Hfl b (or_intror (or_introl eq_refl))). lra.
  - apply IH. intros rec Hin. apply Hfl. right. right. exact Hin.
Qed.

Lemma combine_map_r {A B : Type} (f : A -> B) (l : list A) :
  combine l (map f l) = map (fun a => (a, f a)) l.
Proof. induction l as [|a l IH]; simpl; [reflexivity | rewrite IH; reflexivity]. Qed.

Lemma flat_map_ext_in {A B : Type} (f g : A -> list B) (l : list A) :
  (forall a, In a l -> f a = g a) -> flat_map f l = flat_map g l.
Proof.
  induction l as [|a l IH]; intros H; simpl; [reflexivity|].
  rewrite (H a (or_introl eq_refl)), IH; [reflexivity|].
  intros a' Hin. apply H. right. exact Hin.
Qed.

(** One term of the two forms, where they take the same branch and the
    floor is not reached. *)
Lemma eff_contrib_dense_contrib (qk pjk w : R) :
  pjk < r1em30 \/ r1em20 <= pjk ->
  r1em50 <= w ->
  eff_contrib qk pjk (ln w) = dense_contrib qk pjk w.
Proof.
  intros Hp Hw. unfold eff_contrib, dense_contrib, floor50.
  pose proof r1em50_pos as H50.
  assert (H3020 : r1em30 < r1em20) by (unfold r1em30, r1em20; lra).
  assert (H30 : 0 < r1em30) by apply r1em30_pos.
  rewrite (Rltb_false w r1em50) by exact Hw.
  destruct Hp as [Hp|Hp].
  - rewrite !Rltb_true by lra. reflexivity.
  - rewrite !Rltb_false by lra. rewrite ln_div by lra. reflexivity.
Qed.

(** The two forms of the rate in exact arithmetic, under the conditions of
    the amended claim. *)
Lemma eff_rate_dense_rate (CW : Type) (p : CW -> CW -> R) (tx rx : list CW)
    (q : list R) :
  Nat.even (length rx) = true ->
  pair_marginals_equal p tx q rx ->
  (forall rec, In rec rx -> r1em50 <= marginal p tx q rec) ->
  (forall t rec, In t tx -> In rec rx -> p t rec < r1em30 \/ r1em20 <= p t rec) ->
  eff_rate_real p tx rx (log_den_real p tx q rx) q = dense_rate_real p tx rx q.
Proof.
  intros Heven Heq Hfl Hgap.
  unfold eff_rate_real, dense_rate_real.
  rewrite log_den_real_equal_pairs by assumption.
  f_equal. apply flat_map_ext_in. intros [t qk] Hin.
  apply in_combine_l in Hin. cbn [fst snd].
  rewrite combine_map_r, map_map. apply map_ext_in. intros rec Hrec. cbn [fst snd].
  apply eff_contrib_dense_contrib; auto.
Qed.

(** C2, as the code has it: when the received sequence has even length, the
    two symbols of every pair have the same marginal, no marginal is below
    the floor 1e-50 and no transition probability lies in [1e-30, 1e-20),
    the row-major form fed with the log-denominators of the aggregator and
    the dense form return the same finite value (in exact arithmetic, the
    very same). *)
Theorem rates_agree_on_symmetric_pairs (CW : Type) (p : CW -> CW -> R)
    (tx rx : list CW) (q : list R) :
  Nat.even (length rx) = true ->
  length q = length tx ->
  pair_marginals_equal p tx q rx ->
  (forall rec, In rec rx -> r1em50 <= marginal p tx q rec) ->
  (forall t rec, In t tx -> In rec rx -> p t rec < r1em30 \/ r1em20 <= p t rec) ->
  rates_agree (finite_channel p) 0 tx rx (map XFin q).
Proof.
  intros Heven Hlen Heq Hfl Hgap.
  exists (map XFin (log_den_real p tx q rx)),
         (dense_rate_real p tx rx q), (dense_rate_real p tx rx q).
  split; [|split; [|split]].
  - apply log_Wjk_den_real; [exact Heven | lia |].
    apply pair_marginals_positive_of_floor. exact Hfl.
  - rewrite compute_bit_rate_efficient_real.
    + rewrite eff_rate_dense_rate by assumption. reflexivity.
    + symmetry. exact Hlen.
    + rewrite log_den_real_length by exact Heven. lia.
  - apply compute_rate_real. lia.
  - rewrite Rminus_diag, Rabs_R0. lra.
Qed.

Ltac in_cases H :=
  repeat match type of H with
         | In _ (_ :: _) => destruct H as [H|H]; [subst|]
         | In _ [] => destruct H
         | _ = _ => subst
         end.

Lemma rates_agree_on_symmetric_pairs_witness :
  rates_agree bsc_channel 0 [0%nat; 1%nat] [0%nat; 1%nat]
    (map XFin [1 / 2; 1 / 2]).
Proof.
  apply (rates_agree_on_symmetric_pairs nat bsc_p [0%nat; 1%nat] [0%nat; 1%nat]
           [1 / 2; 1 / 2]).
  - reflexivity.
  - reflexivity.
  - unfold pair_marginals_equal, marginal, Rsum, bsc_p. simpl. split; [lra | exact I].
  - intros rec Hin. in_cases Hin; unfold marginal, Rsum, r1em50, bsc_p; simpl; lra.
  - intros t rec Ht Hrec. right.
    in_cases Ht; in_cases Hrec; unfold r1em20, bsc_p; simpl; lra.
Defined.

(** ** The floor on the denominators *)

(** The dense form: on finite transition probabilities and priors the
    rate of [compute_rate] is finite, every logarithm being taken of a
    probability of at least 1e-30 over a denominator of at least 1e-50. *)
Lemma compute_rate_finite (CW : Type) (p : CW -> CW -> R) (tx rx : list CW)
    (q : list R) :
  (length tx <= length q)%nat ->
  exists r, compute_rate (finite_channel p) tx rx (map XFin q) = Some (XFin r).
Proof.
  intros Hlen. eexists. apply compute_rate_real. exact Hlen.
Qed.

(** C9, the row-major form, at the failing input: with the prior [1; 0] on
    the channel with disjoint supports, the symbols 2 and 3 have marginal 0;
    the aggregator returns [log 0 = -inf] for them, nothing puts a floor
    under it, and the rate is NaN ([0 * inf]), while the dense form is
    finite. *)
Theorem row_major_rate_has_no_floor :
  exists lw,
    compute_all_log_Wjk_den split_channel [0%nat; 1%nat]
      [0%nat; 1%nat; 2%nat; 3%nat] [XFin 1; XFin 0] = Some lw /\
    nth_error lw 2 = Some XNInf /\
    compute_bit_rate_efficient split_channel [0%nat; 1%nat]
      [0%nat; 1%nat; 2%nat; 3%nat] lw [XFin 1; XFin 0] = Some XNaN /\
    exists r, compute_rate split_channel [0%nat; 1%nat]
                [0%nat; 1%nat; 2%nat; 3%nat] [XFin 1; XFin 0] = Some (XFin r).
Proof.
  eexists. split; [|split; [|split]].
  - xeval. reflexivity.
  - reflexivity.
  - xeval. reflexivity.
  - apply (compute_rate_finite nat split_p [0%nat; 1%nat]
             [0%nat; 1%nat; 2%nat; 3%nat] [1; 0]).
    simpl. lia.
Qed.

(** ** The sum of the stabilised alphas *)

Lemma xexp_not_negative (x : xreal) : not_negative (xexp x).
Proof.
  destruct x as [| | |a]; simpl; auto; try lra.
  left. apply exp_pos.
Qed.

Lemma xadd_not_negative (x y : xreal) :
  not_negative x -> not_negative y -> not_negative (xadd x y).
Proof. destruct x, y; simpl; auto; lra. Qed.

Lemma xadd_at_least_one_l (x y : xreal) :
  at_least_one x -> not_negative y -> at_least_one (xadd x y).
Proof. destruct x, y; simpl; auto; lra. Qed.

Lemma xadd_at_least_one_r (x y : xreal) :
  not_negative x -> at_least_one y -> at_least_one (xadd x y).
Proof. destruct x, y; simpl; auto; lra. Qed.

Lemma fold_xadd_at_least_one (l : list xreal) (acc : xreal) :
  Forall not_negative l -> at_least_one acc ->
  at_least_one (fold_left xadd l acc).
Proof.
  intros Hl. revert acc.
  induction Hl as [|x l Hx Hl IH]; intros acc Hacc; simpl; [exact Hacc|].
  apply IH. apply xadd_at_least_one_l; assumption.
Qed.

Lemma fold_xadd_reaches_one (l : list xreal) (acc : xreal) :
  Forall not_negative l -> not_negative acc ->
  Exists at_least_one l ->
  at_least_one (fold_left xadd l acc).
Proof.
  intros Hl. revert acc.
  induction Hl as [|x l Hx Hl IH]; intros acc Hacc Hex; simpl.
  - inversion Hex.
  - inversion Hex as [x' l' H1 | x' l' Hrest]; subst.
    + apply fold_xadd_at_least_one; [exact Hl|].
      apply xadd_at_least_one_r; assumption.
    + apply IH; [|exact Hrest]. apply xadd_not_negative; assumption.
Qed.

(** [std::max_element] returns an element of the range. *)
Lemma max_element_from_In (largest : xreal) (l : list xreal) :
  In (max_element_from largest l) (largest :: l).
Proof.
  revert largest.
  induction l as [|x l IH]; intros largest; simpl; [left; reflexivity|].
  cbn [flt xreal_ops]. destruct (xlt largest x).
  - destruct (IH x) as [H|H]; [right; left; exact H | right; right; exact H].
  - destruct (IH largest) as [H|H]; [left; exact H | right; right; exact H].
Qed.

Lemma max_element_In (l : list xreal) (m : xreal) :
  max_element l = Some m -> In m l.
Proof.
  destruct l as [|x l]; simpl; [discriminate|].
  intros H. apply Some_inj in H. subst m. apply max_element_from_In.
Qed.

(** The largest log-alpha becomes [exp 0 = 1], or NaN when it is not finite. *)
Lemma xexp_self_difference (m : xreal) : at_least_one (xexp (xsub m m)).
Proof.
  destruct m as [| | |a]; simpl; auto.
  replace (a - a) with 0 by lra. rewrite exp_0. lra.
Qed.

(** C4. The sum of the stabilised alphas is never zero, for no input at all:
    when the stabilisation has a result, the sum that [do_full_baa_step]
    divides by is NaN, [+inf] or a finite value of at least 1, the largest
    log-alpha having become [exp 0 = 1].  The step never divides by a zero
    sum, and so never returns NaNs that come from such a division. *)
Theorem alpha_sum_never_zero (CW : Type) (P : CW -> CW -> xreal)
    (tx rx : list CW) (Q alphas : list xreal) :
  stabilized_alphas P tx rx Q = Some alphas ->
  accumulate alphas fzero <> fzero /\
  (forall s, accumulate alphas fzero = XFin s -> 1 <= s) /\
  do_full_baa_step P tx rx Q =
    Some (map (fun alpha => fdiv alpha (accumulate alphas fzero)) alphas).
Proof.
  intros Hst.
  assert (Hone : at_least_one (accumulate alphas fzero)).
  { unfold stabilized_alphas in Hst.
    apply bind_Some in Hst. destruct Hst as [lw [_ Hst]].
    apply bind_Some in Hst. destruct Hst as [las [_ Hst]].
    apply bind_Some in Hst. destruct Hst as [m [Hmax Hst]].
    apply Some_inj in Hst. subst alphas.
    unfold accumulate. apply fold_xadd_reaches_one.
    - apply Forall_map. apply Forall_forall. intros la _. apply xexp_not_negative.
    - simpl. lra.
    - apply Exists_exists. exists (fexp (fsub m m)). split.
      + apply in_map_iff. exists m. split; [reflexivity|].
        apply max_element_In. exact Hmax.
      + apply xexp_self_difference. }
  split; [|split].
  - intros H0. rewrite H0 in Hone. simpl in Hone. lra.
  - intros s Hs. rewrite Hs in Hone. exact Hone.
  - unfold do_full_baa_step. rewrite Hst. reflexivity.
Qed.

Lemma alpha_sum_never_zero_witness :
  exists alphas,
    stabilized_alphas skew_channel [0%nat] [0%nat; 1%nat] [XFin 1] = Some alphas /\
    accumulate alphas fzero <> fzero /\
    (forall s, accumulate alphas fzero = XFin s -> 1 <= s) /\
    do_full_baa_step skew_channel [0%nat] [0%nat; 1%nat] [XFin 1] =
      Some (map (fun alpha => fdiv alpha (accumulate alphas fzero)) alphas).
Proof.
  eexists. split.
  - unfold stabilized_alphas. xeval. reflexivity.
  - apply (alpha_sum_never_zero nat skew_channel [0%nat] [0%nat; 1%nat] [XFin 1]).
    unfold stabilized_alphas. xeval. reflexivity.
Defined.

(** ** Normalisation *)

Section Normalisation.

Variable CW : Type.
Variable p : CW -> CW -> R.

Let P := finite_channel p.

(** With a prior of 0 the log-alpha is [-inf] as soon as one term is kept. *)
Lemma log_alpha_loop_zero_prior (t : CW) (rx : list CW) (lw : list R) (acc : xreal) :
  finite_or_ninf acc ->
  (length rx <= length lw)%nat ->
  exists la,
    log_alpha_loop XNInf (compute_Pjk_row P t rx) (map XFin lw) acc = Some la /\
    finite_or_ninf la.
Proof.
  revert lw acc.
  induction rx as [|rec rx IH]; intros lw acc Hacc Hlen.
  - exists acc. split; [reflexivity | exact Hacc].
  - destruct lw as [|w lw]; simpl in Hlen; [lia|].
    cbn [compute_Pjk_row map log_alpha_loop].
    change (P t rec) with (XFin (p t rec)). cbn [flt f1em12 xreal_ops xlt].
    destruct (Rltb (p t rec) r1em12) eqn:Hlt.
    + apply IH; [exact Hacc | lia].
    + apply Rltb_false_le in Hlt. pose proof r1em12_pos.
      apply IH; [|lia].
      cbn [fadd fmul fsub flog xreal_ops]. rewrite xlog_pos by lra.
      cbn [xadd xsub xmul]. unfold xscale_inf.
      rewrite Rltb_true by lra.
      destruct acc; simpl in *; auto.
Qed.

Lemma compute_log_alpha_k_nonneg_prior (t : CW) (rx : list CW) (qk : R) (lw : list R) :
  0 <= qk ->
  (length rx <= length lw)%nat ->
  exists la,
    compute_log_alpha_k P t rx (XFin qk) (map XFin lw) = Some la /\
    finite_or_ninf la /\ (0 < qk -> is_finite la).
Proof.
  intros [Hq|Hq] Hlen.
  - exists (XFin (log_alpha_real p t rx qk lw)).
    split; [apply compute_log_alpha_k_real; assumption|].
    split; [exact I|]. intros _. eexists. reflexivity.
  - subst qk.
    destruct (log_alpha_loop_zero_prior t rx lw (XFin 0) I Hlen) as [la [Hla Hfin]].
    exists la. split; [|split; [exact Hfin | lra]].
    unfold compute_log_alpha_k. cbn [flog fzero xreal_ops]. unfold xlog.
    rewrite !Rltb_false by lra. exact Hla.
Qed.

Lemma compute_all_log_alpha_k_nonneg (tx rx : list CW) (q lw : list R) :
  length q = length tx ->
  (length rx <= length lw)%nat ->
  Forall (fun qi => 0 <= qi) q ->
  exists las,
    compute_all_log_alpha_k P tx rx (map XFin q) (map XFin lw) = Some las /\
    Forall2 (fun qi la => finite_or_ninf la /\ (0 < qi -> is_finite la)) q las.
Proof.
  intros Hlen Hlw. revert q Hlen.
  induction tx as [|t tx IH]; intros q Hlen Hq.
  - destruct q; [|discriminate]. exists []. split; [reflexivity | constructor].
  - destruct q as [|qk q]; [discriminate|].
    inversion Hq as [|qk' q' Hqk Hq']; subst.
    destruct (compute_log_alpha_k_nonneg_prior t rx qk lw Hqk Hlw) as [la [Hla Hfin]].
    destruct (IH q) as [las [Hlas Hall]]; [simpl in Hlen; lia | exact Hq' |].
    exists (la :: las). split; [|constructor; assumption].
    cbn [map compute_all_log_alpha_k].
    eapply bind_intro; [exact Hla|].
    eapply bind_intro; [exact Hlas|]. reflexivity.
Qed.

(** The largest of log-alphas that are finite or [-inf], one of them finite,
    is finite. *)
Lemma max_element_from_finite (largest : xreal) (l : list xreal) :
  is_finite largest -> Forall finite_or_ninf l ->
  is_finite (max_element_from largest l).
Proof.
  intros Hl Hall. revert largest Hl.
  induction Hall as [|x l Hx Hall IH]; intros largest Hl; simpl; [exact Hl|].
  apply IH. cbn [flt xreal_ops].
  destruct (xlt largest x) eqn:E; [|exact Hl].
  destruct Hl as [a ->]. destruct x; simpl in *; try contradiction; try discriminate.
  eexists. reflexivity.
Qed.

Lemma max_element_finite (l : list xreal) :
  Forall finite_or_ninf l -> Exists is_finite l ->
  exists m, max_element l = Some (XFin m).
Proof.
  intros Hall Hex.
  assert (H : is_finite (match l with [] => XFin 0 | x :: l' => max_element_from x l' end)
              /\ l <> []).
  { induction Hall as [|x l Hx Hall IH]; [inversion Hex|].
    split; [|discriminate].
    destruct x as [| | |a]; simpl in Hx; try contradiction.
    - (* the range starts with -inf *)
      inversion Hex as [x' l' [b Hb] | x' l' Hrest]; subst; [discriminate|].
      destruct (IH Hrest) as [Hfin Hne].
      destruct l as [|y l]; [contradiction|].
      inversion Hall as [|y' l'' Hy Hall']; subst.
      simpl. cbn [flt xreal_ops].
      destruct y as [| | |b]; simpl in Hy; try contradiction; simpl.
      + exact Hfin.
      + apply max_element_from_finite; [eexists; reflexivity | exact Hall'].
    - apply max_element_from_finite; [eexists; reflexivity | exact Hall]. }
  destruct H as [[m Hm] Hne].
  destruct l as [|x l]; [contradiction|].
  exists m. simpl. f_equal. exact Hm.
Qed.

End Normalisation.

Lemma accumulate_real (al : list R) (acc : R) :
  accumulate (map XFin al) (XFin acc) = XFin (fold_left Rplus al acc).
Proof.
  unfold accumulate. revert acc.
  induction al as [|a al IH]; intros acc; simpl; [reflexivity|].
  apply IH.
Qed.

Lemma Rsum_nonneg (l : list R) : Forall (fun x => 0 <= x) l -> 0 <= Rsum l.
Proof.
  induction 1 as [|x l Hx Hl IH]; [unfold Rsum; simpl; lra|].
  rewrite Rsum_cons. lra.
Qed.

Lemma Rsum_pos (l : list R) :
  Forall (fun x => 0 <= x) l -> Exists (fun x => 0 < x) l -> 0 < Rsum l.
Proof.
  induction 1 as [|x l Hx Hl IH]; intros Hex; [inversion Hex|].
  rewrite Rsum_cons. pose proof (Rsum_nonneg l Hl).
  inversion Hex as [x' l' H1 | x' l' Hrest]; subst; [lra|].
  specialize (IH Hrest). lra.
Qed.

Lemma Rsum_pos_Exists (l : list R) :
  Forall (fun x => 0 <= x) l -> 0 < Rsum l -> Exists (fun x => 0 < x) l.
Proof.
  induction 1 as [|x l Hx Hl IH]; intros Hs.
  - unfold Rsum in Hs. simpl in Hs. lra.
  - rewrite Rsum_cons in Hs. destruct Hx as [Hx|Hx].
    + left. exact Hx.
    + right. apply IH. lra.
Qed.

Lemma Rsum_map_div (l : list R) (s : R) :
  Rsum (map (fun a => a / s) l) = Rsum l / s.
Proof.
  induction l as [|a l IH]; simpl.
  - unfold Rsum. simpl. lra.
  - rewrite !Rsum_cons, IH. lra.
Qed.

(** The stabilised alphas of log-alphas that are finite or [-inf]. *)
Lemma stabilise_real (las : list xreal) (m : R) :
  Forall finite_or_ninf las ->
  exists al,
    map (fun la => xexp (xsub la (XFin m))) las = map XFin al /\
    Forall (fun a => 0 <= a) al /\
    (Exists is_finite las -> Exists (fun a => 0 < a) al).
Proof.
  induction 1 as [|la las Hla Hlas IH].
  - exists []. repeat split; [constructor | intros H; inversion H].
  - destruct IH as [al [Hmap [Hnn Hex]]].
    destruct la as [| | |a]; simpl in Hla; try contradiction.
    + exists (0 :: al). simpl. rewrite Hmap. repeat split.
      * constructor; [lra | exact Hnn].
      * intros H. inversion H as [x l [b Hb] | x l Hrest]; subst; [discriminate|].
        right. apply Hex. exact Hrest.
    + exists (exp (a - m) :: al). simpl. rewrite Hmap. repeat split.
      * constructor; [left; apply exp_pos | exact Hnn].
      * intros _. left. apply exp_pos.
Qed.

Lemma xdiv_map_real (al : list R) (s : R) :
  0 < s ->
  map (fun alpha => xdiv alpha (XFin s)) (map XFin al) =
  map XFin (map (fun a => a / s) al).
Proof.
  intros Hs. rewrite !map_map. apply map_ext. intros a. apply xdiv_pos. exact Hs.
Qed.

(** C3, as the code has it: for a distribution [Q_old] (entries not
    negative, summing to 1) as long as [transmitted], finite transition
    probabilities, a received sequence of even length in which every pair of
    symbols has a positive mean marginal, the step returns a [Q_new] with
    one finite entry per transmitted symbol, none negative, that sum (in
    exact arithmetic) to 1. *)
Theorem baa_step_normalised (CW : Type) (p : CW -> CW -> R) (tx rx : list CW)
    (q : list R) :
  Nat.even (length rx) = true ->
  length q = length tx ->
  Forall (fun qi => 0 <= qi) q ->
  Rsum q = 1 ->
  pair_marginals_positive p tx q rx ->
  exists q_new,
    do_full_baa_step (finite_channel p) tx rx (map XFin q) = Some (map XFin q_new) /\
    length q_new = length tx /\
    Forall (fun x => 0 <= x) q_new /\
    Rsum q_new = 1.
Proof.
  intros Heven Hlen Hq Hsum Hpos.
  assert (Hqpos : Exists (fun x => 0 < x) q) by (apply Rsum_pos_Exists; [exact Hq | lra]).
  destruct (compute_all_log_alpha_k_nonneg CW p tx rx q (log_den_real p tx q rx))
    as [las [Hlas Hrel]]; [exact Hlen | | exact Hq |].
  { rewrite log_den_real_length by exact Heven. lia. }
  assert (Hfin : Forall finite_or_ninf las).
  { clear - Hrel. induction Hrel as [|qi la q las [H _] _ IH]; constructor; assumption. }
  assert (Hex : Exists is_finite las).
  { clear - Hrel Hqpos. induction Hrel as [|qi la q las [_ H] _ IH]; [inversion Hqpos|].
    inversion Hqpos; subst; [left; auto | right; auto]. }
  destruct (max_element_finite las Hfin Hex) as [m Hmax].
  destruct (stabilise_real las m Hfin) as [al [Hal [Hnn Halpos]]].
  specialize (Halpos Hex).
  pose proof (Rsum_pos al Hnn Halpos) as Hs.
  assert (Hstab : stabilized_alphas (finite_channel p) tx rx (map XFin q) = Some (map XFin al)).
  { unfold stabilized_alphas.
    eapply bind_intro; [apply log_Wjk_den_real; [exact Heven | lia | exact Hpos]|].
    eapply bind_intro; [exact Hlas|].
    eapply bind_intro; [exact Hmax|].
    f_equal. exact Hal. }
  exists (map (fun a => a / Rsum al) al).
  split; [|split; [|split]].
  - unfold do_full_baa_step. eapply bind_intro; [exact Hstab|].
    cbn [fzero xreal_ops]. rewrite accumulate_real. f_equal.
    apply (xdiv_map_real al (Rsum al) Hs).
  - rewrite length_map.
    apply (f_equal (@length xreal)) in Hal. rewrite !length_map in Hal.
    rewrite <- Hal. apply Forall2_length in Hrel. lia.
  - apply Forall_map. eapply Forall_impl; [|exact Hnn].
    intros a Ha. apply Rmult_le_pos; [exact Ha|].
    left. apply Rinv_0_lt_compat. exact Hs.
  - rewrite Rsum_map_div. field. lra.
Qed.

(** ** Finite sums *)

Section Sums.

Context {A : Type}.

Lemma sum_over_nil (f : A -> R) : sum_over [] f = 0.
Proof. reflexivity. Qed.

Lemma sum_over_cons (a : A) (l : list A) (f : A -> R) :
  sum_over (a :: l) f = f a + sum_over l f.
Proof. unfold sum_over. simpl. apply Rsum_cons. Qed.

Lemma sum_over_ext (l : list A) (f g : A -> R) :
  (forall a, In a l -> f a = g a) -> sum_over l f = sum_over l g.
Proof.
  intros H. unfold sum_over. f_equal. apply map_ext_in. exact H.
Qed.

Lemma sum_over_plus (l : list A) (f g : A -> R) :
  sum_over l (fun a => f a + g a) = sum_over l f + sum_over l g.
Proof.
  induction l as [|a l IH]; [rewrite !sum_over_nil; lra|].
  rewrite !sum_over_cons, IH. lra.
Qed.

Lemma sum_over_minus (l : list A) (f g : A -> R) :
  sum_over l (fun a => f a - g a) = sum_over l f - sum_over l g.
Proof.
  induction l as [|a l IH]; [rewrite !sum_over_nil; lra|].
  rewrite !sum_over_cons, IH. lra.
Qed.

Lemma sum_over_scal_l (l : list A) (c : R) (f : A -> R) :
  sum_over l (fun a => c * f a) = c * sum_over l f.
Proof.
  induction l as [|a l IH]; [rewrite !sum_over_nil; lra|].
  rewrite !sum_over_cons, IH. lra.
Qed.

Lemma sum_over_scal_r (l : list A) (c : R) (f : A -> R) :
  sum_over l (fun a => f a * c) = sum_over l f * c.
Proof.
  induction l as [|a l IH]; [rewrite !sum_over_nil; lra|].
  rewrite !sum_over_cons, IH. lra.
Qed.

Lemma sum_over_le (l : list A) (f g : A -> R) :
  (forall a, In a l -> f a <= g a) -> sum_over l f <= sum_over l g.
Proof.
  induction l as [|a l IH]; intros H; [rewrite !sum_over_nil; lra|].
  rewrite !sum_over_cons.
  pose proof (H a (or_introl eq_refl)).
  assert (sum_over l f <= sum_over l g) by (apply IH; intros; apply H; right; assumption).
  lra.
Qed.

Lemma sum_over_nonneg (l : list A) (f : A -> R) :
  (forall a, In a l -> 0 <= f a) -> 0 <= sum_over l f.
Proof.
  induction l as [|a l IH]; intros H; [rewrite sum_over_nil; lra|].
  rewrite sum_over_cons.
  pose proof (H a (or_introl eq_refl)).
  assert (0 <= sum_over l f) by (apply IH; intros; apply H; right; assumption).
  lra.
Qed.

Lemma sum_over_pos (l : list A) (f : A -> R) :
  l <> [] -> (forall a, In a l -> 0 < f a) -> 0 < sum_over l f.
Proof.
  intros Hne H. destruct l as [|a l]; [contradiction|].
  rewrite sum_over_cons.
  pose proof (H a (or_introl eq_refl)).
  assert (0 <= sum_over l f).
  { apply sum_over_nonneg. intros b Hb. left. apply H. right. exact Hb. }
  lra.
Qed.

Lemma sum_over_ge_term (l : list A) (f : A -> R) (a : A) :
  (forall x, In x l -> 0 <= f x) -> In a l -> f a <= sum_over l f.
Proof.
  induction l as [|x l IH]; intros Hnn Hin; [destruct Hin|].
  rewrite sum_over_cons.
  assert (H0 : 0 <= sum_over l f).
  { apply sum_over_nonneg. intros y Hy. apply Hnn. right. exact Hy. }
  pose proof (Hnn x (or_introl eq_refl)).
  destruct Hin as [->|Hin]; [lra|].
  assert (f a <= sum_over l f) by (apply IH; [intros; apply Hnn; right|]; assumption).
  lra.
Qed.

Lemma sum_over_flat_map {B : Type} (l : list A) (g : A -> list B) (f : B -> R) :
  sum_over (flat_map g l) f = sum_over l (fun a => sum_over (g a) f).
Proof.
  induction l as [|a l IH]; [reflexivity|].
  rewrite sum_over_cons. simpl. unfold sum_over at 1.
  rewrite map_app, Rsum_app. fold (sum_over (g a) f). fold (sum_over (flat_map g l) f).
  rewrite IH. reflexivity.
Qed.

Lemma sum_over_map {B : Type} (l : list A) (g : A -> B) (f : B -> R) :
  sum_over (map g l) f = sum_over l (fun a => f (g a)).
Proof. unfold sum_over. rewrite map_map. reflexivity. Qed.

End Sums.

Lemma sum_over_exchange {A B : Type} (la : list A) (lb : list B) (f : A -> B -> R) :
  sum_over la (fun a => sum_over lb (fun b => f a b)) =
  sum_over lb (fun b => sum_over la (fun a => f a b)).
Proof.
  induction la as [|a la IH].
  - rewrite sum_over_nil. symmetry.
    induction lb as [|b lb IHb]; [reflexivity|].
    rewrite sum_over_cons, IHb, sum_over_nil. lra.
  - rewrite sum_over_cons, IH.
    rewrite <- sum_over_plus. apply sum_over_ext. intros b _.
    rewrite sum_over_cons. reflexivity.
Qed.

(** ** One Blahut-Arimoto update does not decrease the mutual information *)

Section BlahutArimotoMonotone.

Variables A B : Type.
Variable la : list A.
Variable lb : list B.
Variable pr : A -> B -> R.
Variable qo : A -> R.

Hypothesis qo_pos : forall a, In a la -> 0 < qo a.
Hypothesis qo_sum : sum_over la qo = 1.
Hypothesis pr_nonneg : forall a b, In a la -> In b lb -> 0 <= pr a b.
Hypothesis pr_row : forall a, In a la -> sum_over lb (pr a) = 1.
Hypothesis marginal_pos : forall b, In b lb -> 0 < ba_marginal la pr qo b.

Let W := ba_marginal la pr qo.
Let D := ba_divergence la lb pr qo.
Let qn := ba_update la lb pr qo.











End BlahutArimotoMonotone.

(** ** The step on positive priors *)

Section StepValues.

Variable CW : Type.
Variable p : CW -> CW -> R.

Let P := finite_channel p.

Lemma compute_all_log_alpha_k_real (tx rx : list CW) (q lw : list R) :
  length q = length tx ->
  (length rx <= length lw)%nat ->
  Forall (fun qi => 0 < qi) q ->
  compute_all_log_alpha_k P tx rx (map XFin q) (map XFin lw) =
  Some (map XFin (map (fun tq => log_alpha_real p (fst tq) rx (snd tq) lw)
                      (combine tx q))).
Proof.
  intros Hlen Hlw. revert q Hlen.
  induction tx as [|t tx IH]; intros q Hlen Hq; [reflexivity|].
  destruct q as [|qk q]; [discriminate|].
  inversion Hq as [|qk' q' Hqk Hq']; subst.
  cbn [map combine compute_all_log_alpha_k fst snd].
  eapply bind_intro; [apply compute_log_alpha_k_real; assumption|].
  eapply bind_intro; [apply IH; [simpl in Hlen; lia | exact Hq']|].
  reflexivity.
Qed.

Lemma max_element_of_finite (l : list R) :
  l <> [] -> exists m, max_element (map XFin l) = Some (XFin m).
Proof.
  intros Hne. apply max_element_finite.
  - apply Forall_map. apply Forall_forall. intros a _. exact I.
  - destruct l as [|a l]; [contradiction|].
    left. eexists. reflexivity.
Qed.

Lemma Rsum_map_exp_shift (l : list R) (m : R) :
  Rsum (map (fun a => exp (a - m)) l) = Rsum (map exp l) / exp m.
Proof.
  pose proof (exp_pos m) as Hm.
  induction l as [|a l IH]; simpl.
  - unfold Rsum. simpl. lra.
  - rewrite !Rsum_cons, IH. unfold Rminus at 1.
    rewrite exp_plus, exp_Ropp. field. lra.
Qed.

Lemma Rsum_map_exp_pos (l : list R) : l <> [] -> 0 < Rsum (map exp l).
Proof.
  intros Hne. apply (sum_over_pos l exp Hne). intros a _. apply exp_pos.
Qed.

(** [do_full_baa_step] on positive priors. *)
Lemma do_full_baa_step_real (tx rx : list CW) (q : list R) :
  Nat.even (length rx) = true ->
  length q = length tx ->
  tx <> [] ->
  Forall (fun qi => 0 < qi) q ->
  pair_marginals_positive p tx q rx ->
  do_full_baa_step P tx rx (map XFin q) = Some (map XFin (baa_step_real p tx rx q)).
Proof.
  intros Heven Hlen Hne Hq Hpos.
  set (las := log_alphas_real p tx rx q).
  assert (Hlas : las <> []).
  { unfold las, log_alphas_real. destruct tx as [|t tx']; [contradiction|].
    destruct q; discriminate. }
  destruct (max_element_of_finite las Hlas) as [m Hmax].
  assert (Hstab : stabilized_alphas P tx rx (map XFin q) =
                  Some (map XFin (map (fun a => exp (a - m)) las))).
  { unfold stabilized_alphas.
    eapply bind_intro; [apply log_Wjk_den_real; [exact Heven | lia | exact Hpos]|].
    eapply bind_intro.
    { apply compute_all_log_alpha_k_real; [exact Hlen | | exact Hq].
      rewrite log_den_real_length by exact Heven. lia. }
    eapply bind_intro; [exact Hmax|].
    f_equal. unfold las, log_alphas_real. rewrite !map_map. reflexivity. }
  unfold do_full_baa_step. eapply bind_intro; [exact Hstab|].
  cbn [fzero xreal_ops]. rewrite accumulate_real. f_equal.
  fold (Rsum (map (fun a => exp (a - m)) las)).
  rewrite Rsum_map_exp_shift.
  pose proof (Rsum_map_exp_pos las Hlas) as Hz. pose proof (exp_pos m) as Hm.
  etransitivity; [apply xdiv_map_real; apply Rdiv_lt_0_compat; assumption|].
  f_equal. unfold baa_step_real. fold las. rewrite map_map.
  apply map_ext. intros a. unfold Rminus. rewrite exp_plus, exp_Ropp.
  field. split; lra.
Qed.

End StepValues.

(** ** The step as a Blahut-Arimoto update *)


Lemma dense_contrib_kl (qk pjk w : R) :
  pjk = 0 \/ r1em12 <= pjk ->
  r1em50 <= w ->
  dense_contrib qk pjk w = qk * kl_term pjk w.
Proof.
  pose proof r1em12_pos as H12. pose proof r1em30_pos as H30.
  pose proof r1em50_pos as H50.
  assert (H3012 : r1em30 < r1em12) by (unfold r1em30, r1em12; lra).
  intros [Hp|Hp] Hw; unfold dense_contrib, kl_term, floor50.
  - subst pjk. rewrite Rltb_true by exact H30. rewrite Rltb_false by lra. lra.
  - rewrite (Rltb_false pjk r1em30) by lra. rewrite (Rltb_false w r1em50) by exact Hw.
    rewrite Rltb_true by lra. rewrite ln_div by lra. lra.
Qed.

Lemma Rsum_flat_map_map {A B : Type} (la : list A) (lb : list B) (h : A -> B -> R) :
  Rsum (flat_map (fun a => map (h a) lb) la) =
  sum_over la (fun a => sum_over lb (h a)).
Proof.
  induction la as [|a la IH]; [reflexivity|].
  simpl. rewrite Rsum_app, IH, sum_over_cons. reflexivity.
Qed.

Lemma combine_map_weights {A : Type} (tx : list A) (q : list R) (qa : A * R -> R) :
  combine tx (map qa (combine tx q)) = map (fun a => (fst a, qa a)) (combine tx q).
Proof.
  revert q. induction tx as [|t tx IH]; intros q; [reflexivity|].
  destruct q as [|qk q]; [reflexivity|].
  simpl. rewrite IH. reflexivity.
Qed.

Lemma map_snd_combine_eq {A : Type} (tx : list A) (q : list R) :
  length q = length tx -> map snd (combine tx q) = q.
Proof.
  revert q. induction tx as [|t tx IH]; intros q Hlen.
  - destruct q; [reflexivity | discriminate].
  - destruct q as [|qk q]; [discriminate|].
    simpl. rewrite IH; [reflexivity | simpl in Hlen; lia].
Qed.

Section StepAsUpdate.

Variable CW : Type.
Variable p : CW -> CW -> R.
Variables tx rx : list CW.
Variable q : list R.

Hypothesis rx_even : Nat.even (length rx) = true.
Hypothesis q_length : length q = length tx.
Hypothesis q_pos : Forall (fun qi => 0 < qi) q.
Hypothesis q_sum : Rsum q = 1.
Hypothesis p_threshold :
  forall t r, In t tx -> In r rx -> p t r = 0 \/ r1em12 <= p t r.
Hypothesis p_row : forall t, In t tx -> sum_over rx (p t) = 1.
Hypothesis pairs_equal : pair_marginals_equal p tx q rx.
Hypothesis marginal_floor : forall r, In r rx -> r1em50 <= marginal p tx q r.

Let TQ := combine tx q.
Let pr := fun (a : CW * R) (r : CW) => p (fst a) r.

Lemma marginal_weights (qa : CW * R -> R) (r : CW) :
  marginal p tx (map qa TQ) r = ba_marginal TQ pr qa r.
Proof.
  unfold marginal, ba_marginal, sum_over, TQ.
  rewrite combine_map_weights, map_map. reflexivity.
Qed.



Lemma dense_rate_as_information (qa : CW * R -> R) :
  (forall r, In r rx -> r1em50 <= ba_marginal TQ pr qa r) ->
  dense_rate_real p tx rx (map qa TQ) = ba_information TQ rx pr qa.
Proof.
  intros Hfloor. unfold dense_rate_real.
  rewrite Rsum_flat_map_map. unfold TQ at 1. rewrite combine_map_weights. fold TQ.
  rewrite sum_over_map. unfold ba_information.
  apply sum_over_ext. intros a Ha. cbn [fst snd].
  unfold ba_divergence. rewrite <- sum_over_scal_l.
  apply sum_over_ext. intros r Hr.
  rewrite marginal_weights. apply dense_contrib_kl.
  - apply p_threshold; [|exact Hr]. destruct a as [t qt].
    apply (in_combine_l _ _ _ _ Ha).
  - apply Hfloor. exact Hr.
Qed.



End StepAsUpdate.

(** ** The rate across one step *)







(** The binary symmetric channel: the uniform prior is a fixed point of the
    step. *)
Lemma bsc_step_value :
  baa_step_real bsc_p [0%nat; 1%nat] [0%nat; 1%nat] [1 / 2; 1 / 2] = [1 / 2; 1 / 2].
Proof.
  unfold baa_step_real, log_alphas_real, log_alpha_real, log_den_real, alpha_contrib,
    marginal, Rsum, bsc_p.
  cbn. rltb.
  set (w := ln ((0 + 9 / 10 * (1 / 2) + 1 / 10 * (1 / 2) +
                 (0 + 1 / 10 * (1 / 2) + 9 / 10 * (1 / 2))) / 2)).
  replace (0 + 1 / 10 * (ln (1 / 2) + ln (1 / 10) - w)
           + 9 / 10 * (ln (1 / 2) + ln (9 / 10) - w))
    with (0 + 9 / 10 * (ln (1 / 2) + ln (9 / 10) - w)
          + 1 / 10 * (ln (1 / 2) + ln (1 / 10) - w)) by lra.
  set (e := exp (0 + 9 / 10 * (ln (1 / 2) + ln (9 / 10) - w)
                 + 1 / 10 * (ln (1 / 2) + ln (1 / 10) - w))).
  assert (He : 0 < e) by apply exp_pos.
  f_equal; [|f_equal]; field; lra.
Qed.

Lemma baa_step_normalised_witness :
  exists q_new,
    do_full_baa_step bsc_channel [0%nat; 1%nat] [0%nat; 1%nat] (map XFin [1; 0]) =
      Some (map XFin q_new) /\
    length q_new = 2%nat /\
    Forall (fun x => 0 <= x) q_new /\
    Rsum q_new = 1.
Proof.
  apply (baa_step_normalised nat bsc_p [0%nat; 1%nat] [0%nat; 1%nat] [1; 0]).
  - reflexivity.
  - reflexivity.
  - repeat constructor; lra.
  - unfold Rsum. simpl. lra.
  - unfold pair_marginals_positive, marginal, Rsum, bsc_p. simpl. split; [lra | exact I].
Defined.


(** On the binary symmetric channel the uniform prior is returned as it is. *)
Lemma bsc_uniform_fixed_point :
  do_full_baa_step bsc_channel [0%nat; 1%nat] [0%nat; 1%nat] [XFin (1 / 2); XFin (1 / 2)] =
  Some [XFin (1 / 2); XFin (1 / 2)].
Proof.
  change [XFin (1 / 2); XFin (1 / 2)] with (map XFin [1 / 2; 1 / 2]).
  unfold bsc_channel. rewrite <- bsc_step_value at 2.
  apply do_full_baa_step_real.
  - reflexivity.
  - reflexivity.
  - discriminate.
  - repeat constructor; lra.
  - unfold pair_marginals_positive, marginal, Rsum, bsc_p. simpl. split; [lra | exact I].
Qed.

(** Outside the conditions of the normalisation: with the prior [1; 0] on the
    channel with disjoint supports, the received symbols 2 and 3 have marginal
    0, the log-alpha of the second codeword is [-inf - (-inf)], and the step
    returns NaNs, the sum of the alphas being NaN (not zero). *)
Lemma baa_step_unreachable_symbols :
  do_full_baa_step split_channel [0%nat; 1%nat] [0%nat; 1%nat; 2%nat; 3%nat]
    [XFin 1; XFin 0] = Some [XNaN; XNaN].
Proof.
  unfold do_full_baa_step, stabilized_alphas. xeval. reflexivity.
Qed.

(** ** Where the functions are defined, for every scalar type *)

Section Definedness.

Context {F : FloatOps}.
Variable CW : Type.
Variable P : CW -> CW -> Float.

Lemma inner_product_Some_length (r1 r2 : list Float) (init d : Float) :
  inner_product r1 r2 init = Some d -> (length r1 <= length r2)%nat.
Proof.
  revert r2 init.
  induction r1 as [|x r1 IH]; intros r2 init H; simpl; [lia|].
  destruct r2 as [|y r2]; simpl in H; [discriminate|].
  apply IH in H. simpl. lia.
Qed.

Lemma inner_product_app_r (r1 r2 extra : list Float) (init : Float) :
  (length r1 <= length r2)%nat ->
  inner_product r1 (r2 ++ extra) init = inner_product r1 r2 init.
Proof.
  revert r2 init.
  induction r1 as [|x r1 IH]; intros r2 init Hlen; [reflexivity|].
  destruct r2 as [|y r2]; simpl in Hlen; [lia|].
  simpl. apply IH. lia.
Qed.

Lemma log_Wjk_den_Some (tx rx : list CW) (Q lw : list Float) :
  compute_all_log_Wjk_den P tx rx Q = Some lw ->
  Nat.even (length rx) = true /\ length lw = length rx /\
  (rx = [] \/ (length tx <= length Q)%nat).
Proof.
  revert lw.
  induction rx as [| a | a b rx IH] using list_pair_ind; intros lw H.
  - apply Some_inj in H. subst lw. repeat split. left. reflexivity.
  - simpl in H. destruct (compute_Wjk_den P tx a Q); discriminate.
  - cbn [compute_all_log_Wjk_den] in H.
    apply bind_Some in H. destruct H as [d1 [Hd1 H]].
    apply bind_Some in H. destruct H as [d2 [Hd2 H]].
    apply bind_Some in H. destruct H as [lw' [Hlw' H]].
    apply Some_inj in H. subst lw.
    destruct (IH lw' Hlw') as [He [Hl _]].
    split; [|split].
    + simpl length. rewrite Nat.even_succ, Nat.odd_succ. exact He.
    + simpl. lia.
    + right. unfold compute_Wjk_den, compute_Pjk_col in Hd1.
      apply inner_product_Some_length in Hd1. rewrite length_map in Hd1. exact Hd1.
Qed.

Lemma log_Wjk_den_app_Q (tx rx : list CW) (Q extra : list Float) :
  (length tx <= length Q)%nat ->
  compute_all_log_Wjk_den P tx rx (Q ++ extra) = compute_all_log_Wjk_den P tx rx Q.
Proof.
  intros Hlen.
  induction rx as [| a | a b rx IH] using list_pair_ind.
  - reflexivity.
  - simpl. unfold compute_Wjk_den, compute_Pjk_col.
    rewrite inner_product_app_r by (rewrite length_map; exact Hlen). reflexivity.
  - cbn [compute_all_log_Wjk_den]. unfold compute_Wjk_den, compute_Pjk_col.
    rewrite !inner_product_app_r by (rewrite length_map; exact Hlen).
    rewrite IH. reflexivity.
Qed.

Lemma log_alpha_loop_defined (log_Q_k : Float) (row lw : list Float) (acc : Float) :
  (length row <= length lw)%nat <->
  exists la, log_alpha_loop log_Q_k row lw acc = Some la.
Proof.
  revert lw acc.
  induction row as [|x row IH]; intros lw acc; simpl.
  - split; [intros _; eexists; reflexivity | intros _; lia].
  - destruct lw as [|w lw]; simpl.
    + split; [lia | intros [la H]; discriminate].
    + destruct (flt x f1em12); rewrite <- IH; lia.
Qed.

Lemma compute_all_log_alpha_k_defined (tx rx : list CW) (Q lw : list Float) :
  ((length tx <= length Q)%nat /\ (tx = [] \/ (length rx <= length lw)%nat)) <->
  exists las, compute_all_log_alpha_k P tx rx Q lw = Some las.
Proof.
  revert Q.
  induction tx as [|t tx IH]; intros Q.
  - simpl. split; [intros _; eexists; reflexivity|].
    intros _. split; [lia | left; reflexivity].
  - destruct Q as [|qk Q].
    + simpl. split; [intros [H _]; lia | intros [las H]; discriminate].
    + cbn [compute_all_log_alpha_k]. unfold compute_log_alpha_k.
      split.
      * intros [Hlen [Hne|Hlw]]; [discriminate|].
        assert (Hrow : (length (compute_Pjk_row P t rx) <= length lw)%nat)
          by (unfold compute_Pjk_row; rewrite length_map; exact Hlw).
        apply (log_alpha_loop_defined (flog qk) _ lw fzero) in Hrow.
        destruct Hrow as [la Hla].
        destruct (proj1 (IH Q)) as [las Hlas].
        { split; [simpl in Hlen; lia | right; exact Hlw]. }
        exists (la :: las). rewrite Hla. simpl bind. rewrite Hlas. reflexivity.
      * intros [las H].
        apply bind_Some in H. destruct H as [la [Hla H]].
        apply bind_Some in H. destruct H as [las' [Hlas' _]].
        assert (Hrow : (length (compute_Pjk_row P t rx) <= length lw)%nat)
          by (apply (log_alpha_loop_defined (flog qk) _ lw fzero); eexists; exact Hla).
        unfold compute_Pjk_row in Hrow. rewrite length_map in Hrow.
        destruct (proj2 (IH Q)) as [HQ _]; [eexists; exact Hlas'|].
        split; [simpl; lia | right; exact Hrow].
Qed.

Lemma compute_all_log_alpha_k_length (tx rx : list CW) (Q lw las : list Float) :
  compute_all_log_alpha_k P tx rx Q lw = Some las -> length las = length tx.
Proof.
  revert Q las.
  induction tx as [|t tx IH]; intros Q las H.
  - apply Some_inj in H. subst las. reflexivity.
  - destruct Q as [|qk Q]; [discriminate|].
    cbn [compute_all_log_alpha_k] in H.
    apply bind_Some in H. destruct H as [la [_ H]].
    apply bind_Some in H. destruct H as [las' [Hlas' H]].
    apply Some_inj in H. subst las. simpl. rewrite (IH Q las' Hlas'). reflexivity.
Qed.

Lemma compute_all_log_alpha_k_app_Q (tx rx : list CW) (Q extra lw : list Float) :
  (length tx <= length Q)%nat ->
  compute_all_log_alpha_k P tx rx (Q ++ extra) lw = compute_all_log_alpha_k P tx rx Q lw.
Proof.
  revert Q.
  induction tx as [|t tx IH]; intros Q Hlen; [reflexivity|].
  destruct Q as [|qk Q]; simpl in Hlen; [lia|].
  cbn [app compute_all_log_alpha_k]. rewrite IH by lia. reflexivity.
Qed.

Lemma compute_all_log_alpha_k_app (tx1 tx2 rx : list CW) (Q1 Q2 lw : list Float) :
  length Q1 = length tx1 ->
  compute_all_log_alpha_k P (tx1 ++ tx2) rx (Q1 ++ Q2) lw =
  (l1 <- compute_all_log_alpha_k P tx1 rx Q1 lw ;;
   l2 <- compute_all_log_alpha_k P tx2 rx Q2 lw ;;
   Some (l1 ++ l2)).
Proof.
  revert Q1.
  induction tx1 as [|t tx1 IH]; intros Q1 Hlen.
  - destruct Q1; [|discriminate]. simpl.
    destruct (compute_all_log_alpha_k P tx2 rx Q2 lw); reflexivity.
  - destruct Q1 as [|qk Q1]; [discriminate|].
    cbn [app compute_all_log_alpha_k].
    destruct (compute_log_alpha_k P t rx qk lw); [|reflexivity].
    simpl bind. rewrite IH by (simpl in Hlen; lia).
    destruct (compute_all_log_alpha_k P tx1 rx Q1 lw); [|reflexivity].
    simpl bind.
    destruct (compute_all_log_alpha_k P tx2 rx Q2 lw); reflexivity.
Qed.

End Definedness.

Section DefinednessOfRates.

Context {F : FloatOps}.
Variable CW : Type.
Variable P : CW -> CW -> Float.

Lemma bit_rate_row_defined (Qk : Float) (row lw : list Float) (rate : Float) :
  (length row <= length lw)%nat <->
  exists r, bit_rate_row Qk row lw rate = Some r.
Proof.
  revert lw rate.
  induction row as [|x row IH]; intros lw rate; simpl.
  - split; [intros _; eexists; reflexivity | intros _; lia].
  - destruct lw as [|w lw]; simpl.
    + split; [lia | intros [r H]; discriminate].
    + destruct (flt x f1em20); rewrite <- IH; lia.
Qed.

Lemma bit_rate_loop_defined (tx rx : list CW) (lw Q : list Float) (rate : Float) :
  ((length tx <= length Q)%nat /\ (tx = [] \/ (length rx <= length lw)%nat)) <->
  exists r, bit_rate_loop P tx rx lw Q rate = Some r.
Proof.
  revert Q rate.
  induction tx as [|t tx IH]; intros Q rate.
  - simpl. split; [intros _; eexists; reflexivity|].
    intros _. split; [lia | left; reflexivity].
  - destruct Q as [|qk Q].
    + simpl. split; [intros [H _]; lia | intros [r H]; discriminate].
    + cbn [bit_rate_loop]. split.
      * intros [Hlen [Hne|Hlw]]; [discriminate|].
        assert (Hrow : (length (compute_Pjk_row P t rx) <= length lw)%nat)
          by (unfold compute_Pjk_row; rewrite length_map; exact Hlw).
        apply (bit_rate_row_defined qk _ lw rate) in Hrow.
        destruct Hrow as [r1 Hr1]. rewrite Hr1. simpl bind.
        apply IH. split; [simpl in Hlen; lia | right; exact Hlw].
      * intros [r H].
        apply bind_Some in H. destruct H as [r1 [Hr1 H]].
        assert (Hrow : (length (compute_Pjk_row P t rx) <= length lw)%nat)
          by (apply (bit_rate_row_defined qk _ lw rate); eexists; exact Hr1).
        unfold compute_Pjk_row in Hrow. rewrite length_map in Hrow.
        destruct (proj2 (IH Q r1)) as [HQ _]; [eexists; exact H|].
        split; [simpl; lia | right; exact Hrow].
Qed.

Lemma denominator_loop_defined (col Q : list Float) (den : Float) :
  (length col <= length Q)%nat <->
  exists d, denominator_loop col Q den = Some d.
Proof.
  revert Q den.
  induction col as [|x col IH]; intros Q den; simpl.
  - split; [intros _; eexists; reflexivity | intros _; lia].
  - destruct Q as [|y Q]; simpl.
    + split; [lia | intros [d H]; discriminate].
    + rewrite <- IH. lia.
Qed.

Lemma denominator_loop_app_Q (col Q extra : list Float) (den : Float) :
  (length col <= length Q)%nat ->
  denominator_loop col (Q ++ extra) den = denominator_loop col Q den.
Proof.
  revert Q den.
  induction col as [|x col IH]; intros Q den Hlen; [reflexivity|].
  destruct Q as [|y Q]; simpl in Hlen; [lia|].
  simpl. apply IH. lia.
Qed.

Lemma denominators_defined (tx rx : list CW) (Q : list Float) :
  (rx = [] \/ (length tx <= length Q)%nat) <->
  exists den, denominators P tx rx Q = Some den /\ length den = length rx.
Proof.
  unfold denominators. induction rx as [|rec rx IH].
  - split; [intros _; exists []; split; reflexivity | intros _; left; reflexivity].
  - cbn [mapM]. split.
    + intros [Hne|Hlen]; [discriminate|].
      assert (Hcol : (length (map (fun trans => P trans rec) tx) <= length Q)%nat)
        by (rewrite length_map; exact Hlen).
      apply (denominator_loop_defined _ Q fzero) in Hcol. destruct Hcol as [d Hd].
      destruct (proj1 IH (or_intror Hlen)) as [den [Hden Hl]].
      exists (d :: den). rewrite Hd. simpl bind. rewrite Hden.
      split; [reflexivity | simpl; lia].
    + intros [den [H _]].
      apply bind_Some in H. destruct H as [d [Hd _]].
      right.
      assert (Hcol : (length (map (fun trans => P trans rec) tx) <= length Q)%nat)
        by (apply (denominator_loop_defined _ Q fzero); eexists; exact Hd).
      rewrite length_map in Hcol. exact Hcol.
Qed.

Lemma set_nth_length {A : Type} (v : list A) (j : nat) (x : A) :
  length (set_nth v j x) = length v.
Proof.
  revert j. induction v as [|y v IH]; intros j; [reflexivity|].
  destruct j; simpl; [reflexivity | rewrite IH; reflexivity].
Qed.

Lemma clamp_denominator_defined (den : list Float) (j : nat) :
  (j < length den)%nat ->
  exists den', clamp_denominator den j = Some den' /\ length den' = length den /\
               exists d, nth_error den' j = Some d.
Proof.
  intros Hj. unfold clamp_denominator.
  destruct (nth_error den j) as [d|] eqn:E.
  - simpl bind. eexists. split; [reflexivity|].
    destruct (fisnan d || flt d f1em50).
    + split; [apply set_nth_length|].
      destruct (nth_error (set_nth den j f1em50) j) eqn:E'; [eexists; reflexivity|].
      apply nth_error_None in E'. rewrite set_nth_length in E'. lia.
    + split; [reflexivity | exists d; exact E].
  - apply nth_error_None in E. lia.
Qed.

Lemma rate_row_defined (Q : list Float) (k : nat) (row : list Float) :
  (k < length Q)%nat ->
  forall (j : nat) (st : list Float * Float),
    (j + length row <= length (fst st))%nat ->
    exists st', rate_row Q k row j st = Some st' /\ length (fst st') = length (fst st).
Proof.
  intros Hk.
  induction row as [|x row IH]; intros j st Hj.
  - exists st. split; reflexivity.
  - cbn [rate_row]. simpl length in Hj.
    destruct (flt x f1em30).
    + apply IH. lia.
    + destruct (clamp_denominator_defined (fst st) j) as [den' [Hc [Hl [d Hd]]]]; [lia|].
      rewrite Hc. simpl bind. rewrite Hd. simpl bind.
      destruct (nth_error Q k) as [Qk|] eqn:EQ.
      * simpl bind.
        destruct (IH (S j) (den', fadd (snd st) (fmul (fmul Qk x) (flog (fdiv x d)))))
          as [st' [Hst' Hl']]; [simpl; lia|].
        exists st'. split; [exact Hst'|]. simpl in Hl'. lia.
      * apply nth_error_None in EQ. lia.
Qed.

Lemma rate_row_nil (Q : list Float) (k j : nat) (st : list Float * Float) :
  rate_row Q k [] j st = Some st.
Proof. reflexivity. Qed.

Lemma rate_loop_defined (rx tx : list CW) (Q : list Float) :
  forall (k : nat) (st : list Float * Float),
    length (fst st) = length rx ->
    (rx = [] \/ (k + length tx <= length Q)%nat) ->
    exists st', rate_loop Q (prob_table P tx rx) k st = Some st'.
Proof.
  induction tx as [|t tx IH]; intros k st Hden Hcond.
  - exists st. reflexivity.
  - cbn [prob_table map rate_loop]. fold (prob_table P tx rx).
    destruct Hcond as [Hrx|Hlen].
    + subst rx. simpl map. rewrite rate_row_nil. simpl bind.
      apply IH; [exact Hden | left; reflexivity].
    + simpl length in Hlen.
      destruct (rate_row_defined Q k (map (fun rec => P t rec) rx)) with (j := 0%nat) (st := st)
        as [st1 [Hst1 Hl1]]; [lia | rewrite length_map; simpl; lia |].
      rewrite Hst1. simpl bind.
      apply IH; [lia | right; lia].
Qed.

Lemma rate_row_app_Q (Q extra : list Float) (k : nat) (row : list Float) :
  (k < length Q)%nat ->
  forall (j : nat) (st : list Float * Float),
    rate_row (Q ++ extra) k row j st = rate_row Q k row j st.
Proof.
  intros Hk.
  induction row as [|x row IH]; intros j st; [reflexivity|].
  cbn [rate_row]. destruct (flt x f1em30); [apply IH|].
  destruct (clamp_denominator (fst st) j) as [den'|]; [|reflexivity].
  simpl bind. destruct (nth_error den' j) as [d|]; [|reflexivity].
  simpl bind. rewrite nth_error_app1 by exact Hk.
  destruct (nth_error Q k); [|reflexivity].
  simpl bind. apply IH.
Qed.

Lemma rate_loop_app_Q (Q extra : list Float) (table : list (list Float)) :
  forall (k : nat) (st : list Float * Float),
    (k + length table <= length Q)%nat ->
    rate_loop (Q ++ extra) table k st = rate_loop Q table k st.
Proof.
  induction table as [|row table IH]; intros k st Hk; [reflexivity|].
  cbn [rate_loop]. simpl length in Hk.
  rewrite rate_row_app_Q by lia.
  destruct (rate_row Q k row 0 st); [|reflexivity].
  simpl bind. apply IH. lia.
Qed.

End DefinednessOfRates.

(** ** The symmetry reduction of the transmitted codewords *)

Section Symmetries.

Variable CW : Type.

Lemma even_codewords_loop_spec (all : list CW) :
  Nat.even (length all) = true ->
  (2 * length (even_codewords_loop all) = length all)%nat /\
  forall i, nth_error (even_codewords_loop all) i =
            if Nat.ltb (2 * i) (length all) then nth_error all (2 * i) else None.
Proof.
  induction all as [| a | a b all IH] using list_pair_ind; intros Heven.
  - split; [reflexivity|]. intros i. simpl. destruct i; reflexivity.
  - discriminate.
  - destruct IH as [Hl Hn].
    { simpl length in Heven. rewrite Nat.even_succ, Nat.odd_succ in Heven. exact Heven. }
    split; [simpl; lia|].
    intros [|i]; [reflexivity|].
    cbn [even_codewords_loop nth_error]. rewrite Hn.
    replace (2 * S i)%nat with (S (S (2 * i))) by lia.
    cbn [nth_error length].
    destruct (Nat.ltb_spec (2 * i) (length all));
      destruct (Nat.ltb_spec (S (S (2 * i))) (S (S (length all)))); try lia; reflexivity.
Qed.

(** X1. [get_transmitted_codewords_symmetries] has a result exactly on an
    even number of codewords (the assertion); the result then has half the
    length, and its codeword [i] is codeword [2i] of the input. *)
Theorem symmetries_take_even_positions (all : list CW) :
  (Nat.even (length all) = false ->
   get_transmitted_codewords_symmetries all = None) /\
  (Nat.even (length all) = true ->
   exists reduced,
     get_transmitted_codewords_symmetries all = Some reduced /\
     (2 * length reduced = length all)%nat /\
     forall i, (i < length reduced)%nat ->
       nth_error reduced i = nth_error all (2 * i)).
Proof.
  unfold get_transmitted_codewords_symmetries. split; intros Heven; rewrite Heven.
  - reflexivity.
  - destruct (even_codewords_loop_spec all Heven) as [Hl Hn].
    eexists. split; [reflexivity|]. split; [exact Hl|].
    intros i Hi. rewrite Hn.
    destruct (Nat.ltb_spec (2 * i) (length all)); [reflexivity | lia].
Qed.

(** X2. When the codewords come in pairs [c, partner c], the reduction
    returns the first codeword of every pair, in order. *)
Theorem symmetries_of_pairs (partner : CW -> CW) (representatives : list CW) :
  get_transmitted_codewords_symmetries
    (flat_map (fun c => [c; partner c]) representatives) = Some representatives.
Proof.
  unfold get_transmitted_codewords_symmetries.
  assert (H : Nat.even (length (flat_map (fun c => [c; partner c]) representatives)) = true
              /\ even_codewords_loop (flat_map (fun c => [c; partner c]) representatives)
                 = representatives).
  { induction representatives as [|c l [He Hl]]; [split; reflexivity|].
    split.
    - simpl length. rewrite Nat.even_succ, Nat.odd_succ. exact He.
    - simpl. rewrite Hl. reflexivity. }
  destruct H as [He Hl]. rewrite He, Hl. reflexivity.
Qed.

End Symmetries.

Lemma symmetries_take_even_positions_witness :
  get_transmitted_codewords_symmetries [1%nat; 2%nat; 3%nat] = None /\
  exists reduced,
    get_transmitted_codewords_symmetries [1%nat; 2%nat; 3%nat; 4%nat] = Some reduced /\
    (2 * length reduced = 4)%nat /\
    forall i, (i < length reduced)%nat ->
      nth_error reduced i = nth_error [1%nat; 2%nat; 3%nat; 4%nat] (2 * i).
Proof.
  split.
  - apply (proj1 (symmetries_take_even_positions nat [1%nat; 2%nat; 3%nat])). reflexivity.
  - apply (proj2 (symmetries_take_even_positions nat [1%nat; 2%nat; 3%nat; 4%nat])).
    reflexivity.
Defined.

(** ** Where the step and the rates have a result *)

Section DefinednessTheorems.

Context {F : FloatOps}.
Variable CW : Type.
Variable P : CW -> CW -> Float.

(** X3. [do_full_baa_step] has a result exactly when [transmitted] is not
    empty, [received] has even length and [Q_i] has at least as many entries
    as [transmitted]; the result has one entry per transmitted codeword. *)
Theorem do_full_baa_step_defined (tx rx : list CW) (Q : list Float) :
  (tx <> [] /\ Nat.even (length rx) = true /\ (length tx <= length Q)%nat) <->
  exists Q_new, do_full_baa_step P tx rx Q = Some Q_new /\ length Q_new = length tx.
Proof.
  split.
  - intros [Hne [Heven Hlen]].
    destruct (log_Wjk_den_even CW P tx rx Q Heven Hlen) as [lw [Hlw [Hl _]]].
    destruct (proj1 (compute_all_log_alpha_k_defined CW P tx rx Q lw)) as [las Hlas].
    { split; [exact Hlen | right; lia]. }
    pose proof (compute_all_log_alpha_k_length CW P tx rx Q lw las Hlas) as Hll.
    destruct las as [|la las]; [destruct tx; [contradiction | discriminate]|].
    eexists. split.
    + unfold do_full_baa_step, stabilized_alphas.
      rewrite Hlw. simpl bind. rewrite Hlas. simpl bind. reflexivity.
    + simpl. rewrite ?length_map. simpl in Hll. exact Hll.
  - intros [Q_new [H _]].
    unfold do_full_baa_step, stabilized_alphas in H.
    apply bind_Some in H. destruct H as [alphas [H _]].
    apply bind_Some in H. destruct H as [lw [Hlw H]].
    apply bind_Some in H. destruct H as [las [Hlas H]].
    apply bind_Some in H. destruct H as [m [Hmax _]].
    destruct (log_Wjk_den_Some CW P tx rx Q lw Hlw) as [Heven _].
    destruct (proj2 (compute_all_log_alpha_k_defined CW P tx rx Q lw)) as [Hlen _];
      [eexists; exact Hlas|].
    pose proof (compute_all_log_alpha_k_length CW P tx rx Q lw las Hlas) as Hll.
    repeat split; try assumption.
    intros E. subst tx. destruct las; [discriminate Hmax | discriminate Hll].
Qed.

(** X4. [compute_rate] has a result exactly when [received] is empty or
    [Q_i] has at least as many entries as [transmitted]; [Q_i] is read for
    every transmitted codeword as soon as there is one received codeword. *)
Theorem compute_rate_defined (tx rx : list CW) (Q : list Float) :
  (rx = [] \/ (length tx <= length Q)%nat) <->
  exists rate, compute_rate P tx rx Q = Some rate.
Proof.
  unfold compute_rate. split.
  - intros Hcond.
    destruct (proj1 (denominators_defined CW P tx rx Q) Hcond) as [den [Hden Hl]].
    rewrite Hden. simpl bind.
    destruct (rate_loop_defined CW P rx tx Q 0 (den, fzero)) as [st Hst].
    + exact Hl.
    + destruct Hcond as [H|H]; [left; exact H | right; simpl; exact H].
    + rewrite Hst. simpl bind. eexists. reflexivity.
  - intros [rate H].
    apply bind_Some in H. destruct H as [den [Hden _]].
    apply (denominators_defined CW P tx rx Q).
    exists den. split; [exact Hden|].
    clear - Hden. unfold denominators in Hden. revert den Hden.
    induction rx as [|rec rx IH]; intros den H.
    + apply Some_inj in H. subst den. reflexivity.
    + cbn [mapM] in H.
      apply bind_Some in H. destruct H as [d [_ H]].
      apply bind_Some in H. destruct H as [den' [Hden' H]].
      apply Some_inj in H. subst den. simpl. rewrite (IH den' Hden'). reflexivity.
Qed.

(** X5. [compute_bit_rate_efficient] has a result exactly when [Q_i] is as
    long as [transmitted] (the assertion) and, unless [transmitted] is empty,
    [log_W_jk_den] has at least as many entries as [received]. *)
Theorem compute_bit_rate_efficient_defined (tx rx : list CW) (lw Q : list Float) :
  (length tx = length Q /\ (tx = [] \/ (length rx <= length lw)%nat)) <->
  exists rate, compute_bit_rate_efficient P tx rx lw Q = Some rate.
Proof.
  unfold compute_bit_rate_efficient.
  destruct (Nat.eqb_spec (length tx) (length Q)) as [E|E].
  - rewrite <- (bit_rate_loop_defined CW P tx rx lw Q fzero). intuition lia.
  - split; [intros [H _]; contradiction | intros [rate H]; discriminate].
Qed.

(** X6. The log-alphas may be computed on sub-ranges of the transmitted
    codewords, each with its slice of the priors and the whole
    [log_W_jk_den]: concatenated in order the results are the result of one
    call on the whole sequences (the same entries, and undefined together). *)
Theorem log_alphas_partition (subranges : list (list CW)) (rx : list CW)
    (slices : list (list Float)) (lw : list Float) :
  Forall2 (fun sub slice => length slice = length sub) subranges slices ->
  compute_all_log_alpha_k P (concat subranges) rx (concat slices) lw =
  partitioned_log_alphas P subranges rx slices lw.
Proof.
  unfold partitioned_log_alphas.
  induction 1 as [|sub slice subs slices' Hlen Hrest IH]; [reflexivity|].
  cbn [concat combine mapM fst snd].
  rewrite compute_all_log_alpha_k_app by exact Hlen. rewrite IH.
  destruct (compute_all_log_alpha_k P sub rx slice lw); [|reflexivity].
  simpl bind.
  destruct (mapM (fun cq => compute_all_log_alpha_k P (fst cq) rx (snd cq) lw)
                 (combine subs slices')); reflexivity.
Qed.

(** X7. Priors beyond the transmitted codewords: the step and the dense
    rate never read them and return what they return without them, while
    the row-major rate refuses them (its assertion fails). *)
Theorem extra_priors (tx rx : list CW) (Q extra lw : list Float) :
  length Q = length tx ->
  do_full_baa_step P tx rx (Q ++ extra) = do_full_baa_step P tx rx Q /\
  compute_rate P tx rx (Q ++ extra) = compute_rate P tx rx Q /\
  (extra <> [] -> compute_bit_rate_efficient P tx rx lw (Q ++ extra) = None).
Proof.
  intros Hlen. split; [|split].
  - unfold do_full_baa_step, stabilized_alphas.
    rewrite log_Wjk_den_app_Q by lia.
    destruct (compute_all_log_Wjk_den P tx rx Q) as [lw'|]; [|reflexivity].
    simpl bind. rewrite compute_all_log_alpha_k_app_Q by lia. reflexivity.
  - unfold compute_rate, denominators.
    assert (E : mapM (fun rec => denominator_loop (map (fun trans => P trans rec) tx)
                                   (Q ++ extra) fzero) rx =
                mapM (fun rec => denominator_loop (map (fun trans => P trans rec) tx)
                                   Q fzero) rx).
    { induction rx as [|rec rx IH]; [reflexivity|].
      cbn [mapM]. rewrite denominator_loop_app_Q by (rewrite length_map; lia).
      rewrite IH. reflexivity. }
    rewrite E. clear E.
    destruct (mapM _ rx) as [den|]; [|reflexivity].
    simpl bind. rewrite rate_loop_app_Q; [reflexivity|].
    unfold prob_table. rewrite length_map. simpl. lia.
  - intros Hne. unfold compute_bit_rate_efficient.
    destruct (Nat.eqb_spec (length tx) (length (Q ++ extra))) as [E|E]; [|reflexivity].
    rewrite length_app in E. destruct extra; [contradiction | simpl in E; lia].
Qed.

End DefinednessTheorems.

Lemma do_full_baa_step_defined_witness :
  exists Q_new,
    do_full_baa_step skew_channel [0%nat] [0%nat; 1%nat] [XFin 1] = Some Q_new /\
    length Q_new = 1%nat.
Proof.
  apply (proj1 (do_full_baa_step_defined (F := xreal_ops) nat skew_channel
                  [0%nat] [0%nat; 1%nat] [XFin 1])).
  repeat split; [discriminate | simpl; lia].
Defined.

Lemma compute_rate_defined_witness :
  exists rate, compute_rate skew_channel [0%nat; 1%nat] [] [XFin 1] = Some rate.
Proof.
  apply (proj1 (compute_rate_defined (F := xreal_ops) nat skew_channel
                  [0%nat; 1%nat] [] [XFin 1])).
  left. reflexivity.
Defined.

Lemma compute_bit_rate_efficient_defined_witness :
  exists rate,
    compute_bit_rate_efficient skew_channel [0%nat] [0%nat; 1%nat]
      [XFin 0; XFin 0] [XFin 1] = Some rate.
Proof.
  apply (proj1 (compute_bit_rate_efficient_defined (F := xreal_ops) nat skew_channel
                  [0%nat] [0%nat; 1%nat] [XFin 0; XFin 0] [XFin 1])).
  split; [reflexivity | right; simpl; lia].
Defined.

Lemma log_alphas_partition_witness :
  compute_all_log_alpha_k bsc_channel (concat [[0%nat]; [1%nat]]) [0%nat; 1%nat]
    (concat [[XFin (1 / 2)]; [XFin (1 / 2)]]) [XFin 0; XFin 0] =
  partitioned_log_alphas bsc_channel [[0%nat]; [1%nat]] [0%nat; 1%nat]
    [[XFin (1 / 2)]; [XFin (1 / 2)]] [XFin 0; XFin 0].
Proof.
  apply (log_alphas_partition (F := xreal_ops) nat bsc_channel [[0%nat]; [1%nat]]
           [0%nat; 1%nat] [[XFin (1 / 2)]; [XFin (1 / 2)]] [XFin 0; XFin 0]).
  repeat constructor.
Defined.

Lemma extra_priors_witness :
  do_full_baa_step skew_channel [0%nat] [0%nat; 1%nat] ([XFin 1] ++ [XFin 7]) =
  do_full_baa_step skew_channel [0%nat] [0%nat; 1%nat] [XFin 1] /\
  compute_rate skew_channel [0%nat] [0%nat; 1%nat] ([XFin 1] ++ [XFin 7]) =
  compute_rate skew_channel [0%nat] [0%nat; 1%nat] [XFin 1] /\
  ([XFin 7] <> [] ->
   compute_bit_rate_efficient skew_channel [0%nat] [0%nat; 1%nat] [XFin 0; XFin 0]
     ([XFin 1] ++ [XFin 7]) = None).
Proof.
  apply (extra_priors (F := xreal_ops) nat skew_channel [0%nat] [0%nat; 1%nat]
           [XFin 1] [XFin 7] [XFin 0; XFin 0]).
  reflexivity.
Defined.

(** ** Bounds on the mutual information *)

Lemma kl_term_ge (x w : R) : 0 <= x -> 0 < w -> x - w <= kl_term x w.
Proof.
  intros Hx Hw. unfold kl_term. destruct (Rltb 0 x) eqn:E.
  - apply Rltb_spec in E.
    assert (Hq : 0 < x / w) by (apply Rdiv_lt_0_compat; assumption).
    pose proof (ln_ge_1_minus_inv _ Hq) as H.
    rewrite ln_div in H by assumption.
    assert (Hi : / (x / w) = w / x) by (field; split; lra).
    rewrite Hi in H.
    assert (Hm : x * (1 - w / x) <= x * (ln x - ln w))
      by (apply Rmult_le_compat_l; lra).
    replace (x * (1 - w / x)) with (x - w) in Hm by (field; lra).
    exact Hm.
  - apply Rltb_false_le in E. lra.
Qed.

Section InformationBounds.

Variables A B : Type.
Variable la : list A.
Variable lb : list B.
Variable pr : A -> B -> R.
Variable qo : A -> R.

Hypothesis qo_pos : forall a, In a la -> 0 < qo a.
Hypothesis qo_sum : sum_over la qo = 1.
Hypothesis pr_nonneg : forall a b, In a la -> In b lb -> 0 <= pr a b.
Hypothesis pr_row : forall a, In a la -> sum_over lb (pr a) = 1.
Hypothesis marginal_pos : forall b, In b lb -> 0 < ba_marginal la pr qo b.

Lemma ba_marginal_sum : sum_over lb (ba_marginal la pr qo) = 1.
Proof.
  unfold ba_marginal. rewrite sum_over_exchange.
  rewrite (sum_over_ext la _ qo); [exact qo_sum|].
  intros a Ha. rewrite sum_over_scal_r, (pr_row a Ha). lra.
Qed.

Lemma ba_divergence_nonneg (a : A) : In a la -> 0 <= ba_divergence la lb pr qo a.
Proof.
  intros Ha. unfold ba_divergence.
  assert (H : sum_over lb (fun b => pr a b - ba_marginal la pr qo b) <=
              sum_over lb (fun b => kl_term (pr a b) (ba_marginal la pr qo b))).
  { apply sum_over_le. intros b Hb. apply kl_term_ge.
    - apply pr_nonneg; assumption.
    - apply marginal_pos. exact Hb. }
  rewrite sum_over_minus, (pr_row a Ha), ba_marginal_sum in H. lra.
Qed.

Lemma ba_divergence_le (a : A) :
  In a la -> ba_divergence la lb pr qo a <= - ln (qo a).
Proof.
  intros Ha. unfold ba_divergence.
  pose proof (qo_pos a Ha) as Hq.
  assert (H : sum_over lb (fun b => kl_term (pr a b) (ba_marginal la pr qo b)) <=
              sum_over lb (fun b => pr a b * - ln (qo a))).
  { apply sum_over_le. intros b Hb. unfold kl_term.
    destruct (Rltb 0 (pr a b)) eqn:E.
    - apply Rltb_spec in E.
      assert (Hge : pr a b * qo a <= ba_marginal la pr qo b).
      { unfold ba_marginal.
        apply (sum_over_ge_term la (fun a0 => pr a0 b * qo a0) a); [|exact Ha].
        intros x Hx. apply Rmult_le_pos; [apply pr_nonneg; assumption|].
        left. apply qo_pos. exact Hx. }
      assert (Hprod : 0 < pr a b * qo a) by (apply Rmult_lt_0_compat; assumption).
      assert (Hln : ln (pr a b) + ln (qo a) <= ln (ba_marginal la pr qo b)).
      { rewrite <- ln_mult by assumption.
        destruct Hge as [Hlt|Heq]; [left; apply ln_increasing; assumption|].
        rewrite Heq. lra. }
      apply Rmult_le_compat_l; lra.
    - apply Rltb_false_le in E. pose proof (pr_nonneg a b Ha Hb).
      replace (pr a b) with 0 by lra. lra. }
  rewrite sum_over_scal_r, (pr_row a Ha) in H. lra.
Qed.

Lemma ba_information_bounds :
  0 <= ba_information la lb pr qo <= - sum_over la (fun a => qo a * ln (qo a)).
Proof.
  unfold ba_information. split.
  - apply sum_over_nonneg. intros a Ha.
    apply Rmult_le_pos; [left; apply qo_pos; exact Ha | apply ba_divergence_nonneg; exact Ha].
  - replace (- sum_over la (fun a => qo a * ln (qo a)))
      with (sum_over la (fun a => qo a * - ln (qo a))).
    + apply sum_over_le. intros a Ha.
      apply Rmult_le_compat_l; [left; apply qo_pos; exact Ha|].
      apply ba_divergence_le. exact Ha.
    + rewrite (sum_over_ext la _ (fun a => -1 * (qo a * ln (qo a))))
        by (intros; lra).
      rewrite sum_over_scal_l. lra.
Qed.

End InformationBounds.

(** X8. For a channel whose rows sum to 1 with entries that are 0 or at
    least 1e-12, and a strictly positive distribution under which no
    marginal is below the floor 1e-50, the rate of [compute_rate] is finite,
    not negative, and at most the entropy of the distribution (in nats, the
    logarithms being natural). *)
Theorem compute_rate_bounds (CW : Type) (p : CW -> CW -> R) (tx rx : list CW)
    (q : list R) :
  length q = length tx ->
  Forall (fun qi => 0 < qi) q ->
  Rsum q = 1 ->
  (forall t r, In t tx -> In r rx -> p t r = 0 \/ r1em12 <= p t r) ->
  (forall t, In t tx -> sum_over rx (p t) = 1) ->
  (forall r, In r rx -> r1em50 <= marginal p tx q r) ->
  exists rate,
    compute_rate (finite_channel p) tx rx (map XFin q) = Some (XFin rate) /\
    0 <= rate <= entropy q.
Proof.
  intros Hlen Hq Hsum Hthr Hrow Hfloor.
  exists (dense_rate_real p tx rx q).
  split; [apply compute_rate_real; lia|].
  pose proof r1em50_pos as H50. pose proof r1em12_pos as H12.
  rewrite <- (map_snd_combine_eq tx q Hlen) at 1 2.
  rewrite (dense_rate_as_information CW p tx rx q Hthr snd)
    by (intros r Hr; apply (Hfloor r Hr)).
  assert (Hent : entropy q =
                 - sum_over (combine tx q) (fun a => snd a * ln (snd a))).
  { unfold entropy, sum_over. rewrite <- (map_snd_combine_eq tx q Hlen) at 1.
    rewrite map_map. reflexivity. }
  rewrite Hent.
  apply ba_information_bounds.
  - intros a Ha. destruct a as [t qt]. apply in_combine_r in Ha.
    rewrite Forall_forall in Hq. apply Hq. exact Ha.
  - unfold sum_over. rewrite map_snd_combine_eq by exact Hlen. exact Hsum.
  - intros a r Ha Hr. destruct a as [t qt]. apply in_combine_l in Ha.
    cbn [fst]. destruct (Hthr t r Ha Hr); lra.
  - intros a Ha. destruct a as [t qt]. apply in_combine_l in Ha. apply (Hrow t Ha).
  - intros r Hr. pose proof (Hfloor r Hr) as H. unfold marginal in H.
    unfold ba_marginal, sum_over. lra.
Qed.

Lemma compute_rate_bounds_witness :
  exists rate,
    compute_rate bsc_channel [0%nat; 1%nat] [0%nat; 1%nat] (map XFin [1 / 2; 1 / 2]) =
      Some (XFin rate) /\
    0 <= rate <= entropy [1 / 2; 1 / 2].
Proof.
  apply (compute_rate_bounds nat bsc_p [0%nat; 1%nat] [0%nat; 1%nat] [1 / 2; 1 / 2]).
  - reflexivity.
  - repeat constructor; lra.
  - unfold Rsum. simpl. lra.
  - intros t r Ht Hr. right.
    in_cases Ht; in_cases Hr; unfold r1em12, bsc_p; simpl; lra.
  - intros t Ht. in_cases Ht; unfold sum_over, Rsum, bsc_p; simpl; lra.
  - intros r Hr. in_cases Hr; unfold marginal, Rsum, r1em50, bsc_p; simpl; lra.
Defined.

(** ** The stabilisation of the alphas *)

Lemma max_element_from_real (m0 : R) (l : list R) :
  exists m, max_element_from (XFin m0) (map XFin l) = XFin m /\
            m0 <= m /\ Forall (fun a => a <= m) l /\ (m = m0 \/ In m l).
Proof.
  revert m0. induction l as [|a l IH]; intros m0.
  - exists m0. repeat split; [lra | constructor | left; reflexivity].
  - cbn [map max_element_from flt xreal_ops xlt].
    destruct (Rltb m0 a) eqn:E.
    + apply Rltb_spec in E.
      destruct (IH a) as [m [Hm [Hle [Hall Hin]]]].
      exists m. split; [exact Hm|]. split; [lra|]. split.
      * constructor; assumption.
      * right. destruct Hin as [->|Hin]; [left; reflexivity | right; exact Hin].
    + apply Rltb_false_le in E.
      destruct (IH m0) as [m [Hm [Hle [Hall Hin]]]].
      exists m. split; [exact Hm|]. split; [exact Hle|]. split.
      * constructor; [lra | exact Hall].
      * destruct Hin as [->|Hin]; [left; reflexivity | right; right; exact Hin].
Qed.

Lemma max_element_real (l : list R) :
  l <> [] ->
  exists m, max_element (map XFin l) = Some (XFin m) /\
            In m l /\ Forall (fun a => a <= m) l.
Proof.
  intros Hne. destruct l as [|a l]; [contradiction|].
  destruct (max_element_from_real a l) as [m [Hm [Hle [Hall Hin]]]].
  exists m. cbn [map max_element]. rewrite Hm. split; [reflexivity|]. split.
  - destruct Hin as [->|Hin]; [left; reflexivity | right; exact Hin].
  - constructor; assumption.
Qed.

(** X9. On positive priors (finite transition probabilities, a received
    sequence of even length, a positive mean marginal for every pair), the
    stabilised alphas of the step are finite, all in (0, 1], and the largest
    one is exactly 1: "not all small and none of them too huge". *)
Theorem stabilized_alphas_in_unit_interval (CW : Type) (p : CW -> CW -> R)
    (tx rx : list CW) (q : list R) :
  Nat.even (length rx) = true ->
  length q = length tx ->
  tx <> [] ->
  Forall (fun qi => 0 < qi) q ->
  pair_marginals_positive p tx q rx ->
  exists alphas,
    stabilized_alphas (finite_channel p) tx rx (map XFin q) = Some (map XFin alphas) /\
    length alphas = length tx /\
    Forall (fun a => 0 < a <= 1) alphas /\
    In 1 alphas.
Proof.
  intros Heven Hlen Hne Hq Hpos.
  set (las := log_alphas_real p tx rx q).
  assert (Hlas : las <> []).
  { unfold las, log_alphas_real. destruct tx as [|t tx']; [contradiction|].
    destruct q; discriminate. }
  destruct (max_element_real las Hlas) as [m [Hmax [Hin Hall]]].
  exists (map (fun a => exp (a - m)) las).
  split; [|split; [|split]].
  - unfold stabilized_alphas.
    eapply bind_intro; [apply log_Wjk_den_real; [exact Heven | lia | exact Hpos]|].
    eapply bind_intro.
    { apply compute_all_log_alpha_k_real; [exact Hlen | | exact Hq].
      rewrite log_den_real_length by exact Heven. lia. }
    eapply bind_intro; [exact Hmax|].
    f_equal. unfold las, log_alphas_real. rewrite !map_map. reflexivity.
  - unfold las, log_alphas_real. rewrite !length_map, length_combine. lia.
  - apply Forall_map. eapply Forall_impl; [|exact Hall].
    intros a Ha. cbv beta. split; [apply exp_pos|].
    rewrite <- exp_0. destruct (Req_dec (a - m) 0) as [E|E].
    + rewrite E. lra.
    + left. apply exp_increasing. lra.
  - apply in_map_iff. exists m. split; [|exact Hin].
    replace (m - m) with 0 by lra. apply exp_0.
Qed.

Lemma stabilized_alphas_in_unit_interval_witness :
  exists alphas,
    stabilized_alphas bsc_channel [0%nat; 1%nat] [0%nat; 1%nat]
      (map XFin [1 / 2; 1 / 2]) = Some (map XFin alphas) /\
    length alphas = 2%nat /\
    Forall (fun a => 0 < a <= 1) alphas /\
    In 1 alphas.
Proof.
  apply (stabilized_alphas_in_unit_interval nat bsc_p [0%nat; 1%nat] [0%nat; 1%nat]
           [1 / 2; 1 / 2]).
  - reflexivity.
  - reflexivity.
  - discriminate.
  - repeat constructor; lra.
  - unfold pair_marginals_positive, marginal, Rsum, bsc_p. simpl. split; [lra | exact I].
Defined.

(** X10. The subtraction of the largest log-alpha cancels in the
    normalisation: on positive priors the step returns, for every
    transmitted codeword, [exp log_alpha_i / sum_k exp log_alpha_k]. *)
Theorem baa_step_is_normalised_exponential (CW : Type) (p : CW -> CW -> R)
    (tx rx : list CW) (q : list R) :
  Nat.even (length rx) = true ->
  length q = length tx ->
  tx <> [] ->
  Forall (fun qi => 0 < qi) q ->
  pair_marginals_positive p tx q rx ->
  do_full_baa_step (finite_channel p) tx rx (map XFin q) =
  Some (map XFin
          (map (fun la => exp la / Rsum (map exp (log_alphas_real p tx rx q)))
               (log_alphas_real p tx rx q))).
Proof.
  intros Heven Hlen Hne Hq Hpos.
  apply do_full_baa_step_real; assumption.
Qed.

Lemma baa_step_is_normalised_exponential_witness :
  do_full_baa_step bsc_channel [0%nat; 1%nat] [0%nat; 1%nat] (map XFin [1 / 2; 1 / 2]) =
  Some (map XFin
          (map (fun la => exp la /
                          Rsum (map exp (log_alphas_real bsc_p [0%nat; 1%nat]
                                           [0%nat; 1%nat] [1 / 2; 1 / 2])))
               (log_alphas_real bsc_p [0%nat; 1%nat] [0%nat; 1%nat] [1 / 2; 1 / 2]))).
Proof.
  apply (baa_step_is_normalised_exponential nat bsc_p [0%nat; 1%nat] [0%nat; 1%nat]
           [1 / 2; 1 / 2]).
  - reflexivity.
  - reflexivity.
  - discriminate.
  - repeat constructor; lra.
  - unfold pair_marginals_positive, marginal, Rsum, bsc_p. simpl. split; [lra | exact I].
Defined.

(** ** Priors that are not normalised *)

Section Scaling.

Variable CW : Type.
Variable p : CW -> CW -> R.
Variable c : R.
Hypothesis c_pos : 0 < c.

Lemma marginal_scaled (tx : list CW) (q : list R) (r : CW) :
  marginal p tx (map (Rmult c) q) r = c * marginal p tx q r.
Proof.
  unfold marginal.
  fold (sum_over (combine tx (map (Rmult c) q)) (fun tq => p (fst tq) r * snd tq)).
  fold (sum_over (combine tx q) (fun tq => p (fst tq) r * snd tq)).
  revert q. induction tx as [|t tx IH]; intros q.
  - simpl. rewrite !sum_over_nil. lra.
  - destruct q as [|qk q]; [simpl; rewrite !sum_over_nil; lra|].
    cbn [map combine]. rewrite !sum_over_cons, IH. cbn [fst snd]. lra.
Qed.

Lemma log_den_real_scaled (tx rx : list CW) (q : list R) :
  pair_marginals_positive p tx q rx ->
  log_den_real p tx (map (Rmult c) q) rx =
  map (fun w => w + ln c) (log_den_real p tx q rx).
Proof.
  induction rx as [| a | a b rx IH] using list_pair_ind; intros Hpos.
  - reflexivity.
  - reflexivity.
  - destruct Hpos as [Hab Hpos].
    cbn [log_den_real map]. rewrite IH by exact Hpos.
    rewrite !marginal_scaled.
    replace ((c * marginal p tx q a + c * marginal p tx q b) / 2)
      with (c * ((marginal p tx q a + marginal p tx q b) / 2)) by lra.
    rewrite ln_mult by lra.
    replace (ln c + ln ((marginal p tx q a + marginal p tx q b) / 2))
      with (ln ((marginal p tx q a + marginal p tx q b) / 2) + ln c) by lra.
    reflexivity.
Qed.

Lemma pair_marginals_positive_scaled (tx rx : list CW) (q : list R) :
  pair_marginals_positive p tx q rx ->
  pair_marginals_positive p tx (map (Rmult c) q) rx.
Proof.
  induction rx as [| a | a b rx IH] using list_pair_ind; intros Hpos; simpl; auto.
  destruct Hpos as [Hab Hpos]. split; [|apply IH; exact Hpos].
  rewrite !marginal_scaled.
  replace (c * marginal p tx q a + c * marginal p tx q b)
    with (c * (marginal p tx q a + marginal p tx q b)) by lra.
  apply Rmult_lt_0_compat; assumption.
Qed.

Lemma alpha_contrib_scaled (qk pjk w : R) :
  0 < qk -> alpha_contrib (c * qk) pjk (w + ln c) = alpha_contrib qk pjk w.
Proof.
  intros Hq. unfold alpha_contrib. destruct (Rltb pjk r1em12); [reflexivity|].
  rewrite ln_mult by assumption. lra.
Qed.

Lemma log_alpha_real_scaled (t : CW) (rx : list CW) (qk : R) (lw : list R) :
  0 < qk ->
  log_alpha_real p t rx (c * qk) (map (fun w => w + ln c) lw) =
  log_alpha_real p t rx qk lw.
Proof.
  intros Hq. unfold log_alpha_real. f_equal.
  revert lw. induction rx as [|r rx IH]; intros lw; [reflexivity|].
  destruct lw as [|w lw]; [reflexivity|].
  cbn [map combine fst snd]. rewrite alpha_contrib_scaled by exact Hq.
  rewrite IH. reflexivity.
Qed.

Lemma log_alphas_real_scaled (tx rx : list CW) (q : list R) :
  Forall (fun qi => 0 < qi) q ->
  pair_marginals_positive p tx q rx ->
  log_alphas_real p tx rx (map (Rmult c) q) = log_alphas_real p tx rx q.
Proof.
  intros Hq Hpos. unfold log_alphas_real.
  rewrite log_den_real_scaled by exact Hpos.
  generalize (log_den_real p tx q rx) as lw. intros lw. clear Hpos.
  revert q Hq. induction tx as [|t tx IH]; intros q Hq; [reflexivity|].
  destruct q as [|qk q]; [reflexivity|].
  inversion Hq as [|qk' q' Hqk Hq']; subst.
  cbn [map combine fst snd]. rewrite log_alpha_real_scaled by exact Hqk.
  rewrite IH by exact Hq'. reflexivity.
Qed.

End Scaling.

(** X11. The step does not need a normalised prior: multiplying every
    (positive) prior by the same positive constant does not change the
    result, the constant cancelling between [log Q_k] and the
    log-denominators. *)
Theorem baa_step_scale_invariant (CW : Type) (p : CW -> CW -> R) (c : R)
    (tx rx : list CW) (q : list R) :
  0 < c ->
  Nat.even (length rx) = true ->
  length q = length tx ->
  tx <> [] ->
  Forall (fun qi => 0 < qi) q ->
  pair_marginals_positive p tx q rx ->
  do_full_baa_step (finite_channel p) tx rx (map XFin (map (Rmult c) q)) =
  do_full_baa_step (finite_channel p) tx rx (map XFin q).
Proof.
  intros Hc Heven Hlen Hne Hq Hpos.
  rewrite !do_full_baa_step_real; try assumption.
  - unfold baa_step_real. rewrite (log_alphas_real_scaled CW p c Hc tx rx q Hq Hpos).
    reflexivity.
  - rewrite length_map. exact Hlen.
  - apply Forall_map. eapply Forall_impl; [|exact Hq].
    intros a Ha. apply Rmult_lt_0_compat; assumption.
  - apply pair_marginals_positive_scaled; assumption.
Qed.

Lemma baa_step_scale_invariant_witness :
  do_full_baa_step bsc_channel [0%nat; 1%nat] [0%nat; 1%nat]
    (map XFin (map (Rmult 3) [1 / 2; 1 / 2])) =
  do_full_baa_step bsc_channel [0%nat; 1%nat] [0%nat; 1%nat] (map XFin [1 / 2; 1 / 2]).
Proof.
  apply (baa_step_scale_invariant nat bsc_p 3 [0%nat; 1%nat] [0%nat; 1%nat]
           [1 / 2; 1 / 2]).
  - lra.
  - reflexivity.
  - reflexivity.
  - discriminate.
  - repeat constructor; lra.
  - unfold pair_marginals_positive, marginal, Rsum, bsc_p. simpl. split; [lra | exact I].
Defined.

(** ** The row-major rate over a split of the transmitted codewords *)

Lemma combine_app_eq {A B : Type} (l1 l2 : list A) (m1 m2 : list B) :
  length m1 = length l1 ->
  combine (l1 ++ l2) (m1 ++ m2) = combine l1 m1 ++ combine l2 m2.
Proof.
  revert m1. induction l1 as [|a l1 IH]; intros m1 Hlen.
  - destruct m1; [reflexivity | discriminate].
  - destruct m1 as [|b m1]; [discriminate|].
    simpl. rewrite IH by (simpl in Hlen; lia). reflexivity.
Qed.

(** X12. In exact arithmetic (finite values are reals, no rounding), the
    row-major rate can be computed on sub-ranges of the transmitted
    codewords, each with its slice of the priors, and summed: the rate of
    the whole is the sum of the rates of the two parts. *)
Theorem row_major_rate_additive (CW : Type) (p : CW -> CW -> R)
    (tx1 tx2 rx : list CW) (q1 q2 lw : list R) :
  length q1 = length tx1 ->
  length q2 = length tx2 ->
  (length rx <= length lw)%nat ->
  exists r1 r2,
    compute_bit_rate_efficient (finite_channel p) tx1 rx (map XFin lw) (map XFin q1) =
      Some (XFin r1) /\
    compute_bit_rate_efficient (finite_channel p) tx2 rx (map XFin lw) (map XFin q2) =
      Some (XFin r2) /\
    compute_bit_rate_efficient (finite_channel p) (tx1 ++ tx2) rx (map XFin lw)
      (map XFin (q1 ++ q2)) = Some (XFin (r1 + r2)).
Proof.
  intros H1 H2 Hlw.
  exists (eff_rate_real p tx1 rx lw q1), (eff_rate_real p tx2 rx lw q2).
  split; [|split].
  - apply compute_bit_rate_efficient_real; [symmetry; exact H1 | exact Hlw].
  - apply compute_bit_rate_efficient_real; [symmetry; exact H2 | exact Hlw].
  - rewrite compute_bit_rate_efficient_real.
    + unfold eff_rate_real. rewrite combine_app_eq by exact H1.
      rewrite flat_map_app, Rsum_app. reflexivity.
    + rewrite !length_app. lia.
    + exact Hlw.
Qed.

Lemma row_major_rate_additive_witness :
  exists r1 r2,
    compute_bit_rate_efficient bsc_channel [0%nat] [0%nat; 1%nat]
      (map XFin [0; 0]) (map XFin [1 / 2]) = Some (XFin r1) /\
    compute_bit_rate_efficient bsc_channel [1%nat] [0%nat; 1%nat]
      (map XFin [0; 0]) (map XFin [1 / 2]) = Some (XFin r2) /\
    compute_bit_rate_efficient bsc_channel ([0%nat] ++ [1%nat]) [0%nat; 1%nat]
      (map XFin [0; 0]) (map XFin ([1 / 2] ++ [1 / 2])) = Some (XFin (r1 + r2)).
Proof.
  apply (row_major_rate_additive nat bsc_p [0%nat] [1%nat] [0%nat; 1%nat]
           [1 / 2] [1 / 2] [0; 0]).
  - reflexivity.
  - reflexivity.
  - simpl. lia.
Defined.

(** ** The binary symmetric channel *)

Lemma bsc_eps_step_value (eps : R) :
  baa_step_real (bsc_eps_p eps) [0%nat; 1%nat] [0%nat; 1%nat] [1 / 2; 1 / 2] =
  [1 / 2; 1 / 2].
Proof.
  unfold baa_step_real, log_alphas_real, log_alpha_real, Rsum.
  cbn [combine map fst snd fold_left]. unfold bsc_eps_p. cbn [Nat.eqb].
  set (lw := log_den_real _ _ _ _).
  destruct lw as [|w0 [|w1 lw']] eqn:E; cbn [combine map fst snd fold_left].
  - rewrite exp_0. f_equal; [|f_equal]; lra.
  - unfold lw in E. discriminate E.
  - assert (Hw : w0 = w1).
    { unfold lw in E. cbn [log_den_real] in E. inversion E. reflexivity. }
    subst w1.
    replace (0 + alpha_contrib (1 / 2) eps w0 + alpha_contrib (1 / 2) (1 - eps) w0)
      with (0 + alpha_contrib (1 / 2) (1 - eps) w0 + alpha_contrib (1 / 2) eps w0) by lra.
    set (e := exp _). assert (He : 0 < e) by apply exp_pos.
    f_equal; [|f_equal]; field; lra.
Qed.

(** X13. On the binary symmetric channel, whatever its crossover
    probability, the uniform prior is a fixed point of the step; when the
    crossover probability and its complement are at least 1e-30, the rate of
    the uniform prior is [ln 2 + eps ln eps + (1 - eps) ln (1 - eps)],
    the capacity in nats. *)
Theorem bsc_uniform_prior (eps : R) :
  do_full_baa_step (finite_channel (bsc_eps_p eps)) [0%nat; 1%nat] [0%nat; 1%nat]
    [XFin (1 / 2); XFin (1 / 2)] = Some [XFin (1 / 2); XFin (1 / 2)] /\
  (r1em30 <= eps -> r1em30 <= 1 - eps ->
   compute_rate (finite_channel (bsc_eps_p eps)) [0%nat; 1%nat] [0%nat; 1%nat]
     [XFin (1 / 2); XFin (1 / 2)] =
   Some (XFin (ln 2 + eps * ln eps + (1 - eps) * ln (1 - eps)))).
Proof.
  change [XFin (1 / 2); XFin (1 / 2)] with (map XFin [1 / 2; 1 / 2]). split.
  - rewrite <- (bsc_eps_step_value eps) at 2.
    apply do_full_baa_step_real.
    + reflexivity.
    + reflexivity.
    + discriminate.
    + repeat constructor; lra.
    + unfold pair_marginals_positive, marginal, Rsum, bsc_eps_p. simpl.
      split; [lra | exact I].
  - intros He He'. pose proof r1em30_pos as H30.
    rewrite compute_rate_real by (simpl; lia). do 2 f_equal.
    unfold dense_rate_real, dense_contrib, floor50, marginal, Rsum, bsc_eps_p.
    unfold r1em30 in He, He', H30.
    cbn. rltb.
    replace (0 + (1 - eps) * (1 / 2) + eps * (1 / 2)) with (1 / 2) by lra.
    replace (0 + eps * (1 / 2) + (1 - eps) * (1 / 2)) with (1 / 2) by lra.
    rewrite (ln_div (1 - eps) (1 / 2)), (ln_div eps (1 / 2)) by lra.
    assert (H2 : ln (1 / 2) = - ln 2).
    { replace (1 / 2) with (/ 2) by lra. apply ln_Rinv. lra. }
    rewrite H2. field.
Qed.

Lemma bsc_uniform_prior_witness :
  r1em30 <= 1 / 10 /\
  compute_rate (finite_channel (bsc_eps_p (1 / 10))) [0%nat; 1%nat] [0%nat; 1%nat]
    [XFin (1 / 2); XFin (1 / 2)] =
  Some (XFin (ln 2 + 1 / 10 * ln (1 / 10) + (1 - 1 / 10) * ln (1 - 1 / 10))).
Proof.
  split; [unfold r1em30; lra|].
  apply (proj2 (bsc_uniform_prior (1 / 10))); unfold r1em30; lra.
Defined.

(** ** The support of the new distribution *)

Lemma compute_all_log_alpha_k_nth_error {F : FloatOps} (CW : Type)
    (P : CW -> CW -> Float) (tx rx : list CW) (Q lw las : list Float) :
  compute_all_log_alpha_k P tx rx Q lw = Some las ->
  forall i t Q_k,
    nth_error tx i = Some t -> nth_error Q i = Some Q_k ->
    exists la, nth_error las i = Some la /\
               compute_log_alpha_k P t rx Q_k lw = Some la.
Proof.
  revert Q las.
  induction tx as [|t0 tx IH]; intros Q las H i t Q_k Ht HQ.
  - destruct i; discriminate.
  - destruct Q as [|q0 Q]; [discriminate|].
    cbn [compute_all_log_alpha_k] in H.
    apply bind_Some in H. destruct H as [la0 [Hla0 H]].
    apply bind_Some in H. destruct H as [las' [Hlas' H]].
    apply Some_inj in H. subst las.
    destruct i as [|i]; simpl in Ht, HQ.
    + apply Some_inj in Ht. apply Some_inj in HQ. subst.
      exists la0. split; [reflexivity | exact Hla0].
    + simpl. eapply IH; eassumption.
Qed.

Section Support.

Variable CW : Type.
Variable p : CW -> CW -> R.

Let P := finite_channel p.

Lemma log_alpha_loop_zero_prior_value (t : CW) (rx : list CW) (lw : list R)
    (acc : xreal) :
  finite_or_ninf acc ->
  (length rx <= length lw)%nat ->
  log_alpha_loop XNInf (compute_Pjk_row P t rx) (map XFin lw) acc =
  Some (if row_kept p t rx then XNInf else acc).
Proof.
  revert lw acc.
  induction rx as [|rec rx IH]; intros lw acc Hacc Hlen; [reflexivity|].
  destruct lw as [|w lw]; simpl in Hlen; [lia|].
  cbn [compute_Pjk_row map log_alpha_loop].
  change (P t rec) with (XFin (p t rec)). cbn [flt f1em12 xreal_ops xlt].
  unfold row_kept. cbn [existsb]. fold (row_kept p t rx).
  destruct (Rltb (p t rec) r1em12) eqn:Hlt; cbn [negb orb].
  - apply IH; [exact Hacc | lia].
  - apply Rltb_false_le in Hlt. pose proof r1em12_pos.
    cbn [fadd fmul fsub flog xreal_ops]. rewrite xlog_pos by lra.
    cbn [xadd xsub xmul]. unfold xscale_inf. rewrite Rltb_true by lra.
    replace (xadd acc XNInf) with XNInf
      by (destruct acc; simpl in *; try contradiction; reflexivity).
    rewrite IH by (simpl; auto; lia).
    destruct (row_kept p t rx); reflexivity.
Qed.

Lemma compute_log_alpha_k_zero_prior (t : CW) (rx : list CW) (lw : list R) :
  (length rx <= length lw)%nat ->
  compute_log_alpha_k P t rx (XFin 0) (map XFin lw) =
  Some (if row_kept p t rx then XNInf else XFin 0).
Proof.
  intros Hlen. unfold compute_log_alpha_k. cbn [flog fzero xreal_ops]. unfold xlog.
  rewrite !Rltb_false by lra.
  apply (log_alpha_loop_zero_prior_value t rx lw (XFin 0) I Hlen).
Qed.

(** The result of the step on a distribution, in terms of the log-alphas. *)
Lemma baa_step_shape (tx rx : list CW) (q : list R) :
  Nat.even (length rx) = true ->
  length q = length tx ->
  Forall (fun qi => 0 <= qi) q ->
  Rsum q = 1 ->
  pair_marginals_positive p tx q rx ->
  exists las m s,
    compute_all_log_alpha_k P tx rx (map XFin q)
      (map XFin (log_den_real p tx q rx)) = Some las /\
    0 < s /\
    do_full_baa_step P tx rx (map XFin q) =
    Some (map (fun la => xdiv (xexp (xsub la (XFin m))) (XFin s)) las).
Proof.
  intros Heven Hlen Hq Hsum Hpos.
  assert (Hqpos : Exists (fun x => 0 < x) q) by (apply Rsum_pos_Exists; [exact Hq | lra]).
  destruct (compute_all_log_alpha_k_nonneg CW p tx rx q (log_den_real p tx q rx))
    as [las [Hlas Hrel]]; [exact Hlen | | exact Hq |].
  { rewrite log_den_real_length by exact Heven. lia. }
  assert (Hfin : Forall finite_or_ninf las).
  { clear - Hrel. induction Hrel as [|qi la q las [H _] _ IH]; constructor; assumption. }
  assert (Hex : Exists is_finite las).
  { clear - Hrel Hqpos. induction Hrel as [|qi la q las [_ H] _ IH]; [inversion Hqpos|].
    inversion Hqpos; subst; [left; auto | right; auto]. }
  destruct (max_element_finite las Hfin Hex) as [m Hmax].
  destruct (stabilise_real las m Hfin) as [al [Hal [Hnn Halpos]]].
  specialize (Halpos Hex).
  pose proof (Rsum_pos al Hnn Halpos) as Hs.
  exists las, m, (Rsum al). split; [exact Hlas|]. split; [exact Hs|].
  assert (Hstab : stabilized_alphas P tx rx (map XFin q) =
                  Some (map (fun la => xexp (xsub la (XFin m))) las)).
  { unfold stabilized_alphas.
    eapply bind_intro; [apply log_Wjk_den_real; [exact Heven | lia | exact Hpos]|].
    eapply bind_intro; [exact Hlas|].
    eapply bind_intro; [exact Hmax|]. reflexivity. }
  unfold do_full_baa_step. eapply bind_intro; [exact Hstab|].
  assert (Hacc : accumulate (map (fun la => xexp (xsub la (XFin m))) las) (XFin 0) =
                 XFin (Rsum al)) by (rewrite Hal; apply accumulate_real).
  cbn [fdiv fzero xreal_ops]. rewrite Hacc, map_map. reflexivity.
Qed.

(** X14. The support of the new distribution (same conditions as the
    normalisation): a transmitted codeword with a positive prior keeps a
    positive probability; one with prior 0 keeps probability 0 when some
    transition probability of its row is at least 1e-12, and gets a positive
    probability when its whole row is under the threshold (its log-alpha is
    then the empty sum 0). *)
Theorem baa_step_support (tx rx : list CW) (q : list R) :
  Nat.even (length rx) = true ->
  length q = length tx ->
  Forall (fun qi => 0 <= qi) q ->
  Rsum q = 1 ->
  pair_marginals_positive p tx q rx ->
  exists Q_new,
    do_full_baa_step (finite_channel p) tx rx (map XFin q) = Some Q_new /\
    forall i t qi,
      nth_error tx i = Some t -> nth_error q i = Some qi ->
      exists qn,
        nth_error Q_new i = Some (XFin qn) /\
        (0 < qi -> 0 < qn) /\
        (qi = 0 -> row_kept p t rx = true -> qn = 0) /\
        (qi = 0 -> row_kept p t rx = false -> 0 < qn).
Proof.
  intros Heven Hlen Hq Hsum Hpos.
  destruct (baa_step_shape tx rx q Heven Hlen Hq Hsum Hpos)
    as [las [m [s [Hlas [Hs Hstep]]]]].
  eexists. split; [exact Hstep|].
  intros i t qi Ht Hqi.
  assert (HQi : nth_error (map XFin q) i = Some (XFin qi))
    by (rewrite nth_error_map, Hqi; reflexivity).
  destruct (compute_all_log_alpha_k_nth_error (F := xreal_ops) CW P tx rx _ _ las Hlas
              i t (XFin qi) Ht HQi)
    as [la [Hla Hrow]].
  assert (Hlw : (length rx <= length (log_den_real p tx q rx))%nat)
    by (rewrite log_den_real_length by exact Heven; lia).
  pose proof (map_nth_error (fun la => xdiv (xexp (xsub la (XFin m))) (XFin s))
                i las Hla) as Hn.
  assert (Hqi0 : 0 <= qi).
  { rewrite Forall_forall in Hq. apply Hq. eapply nth_error_In. exact Hqi. }
  destruct Hqi0 as [Hqpos|Hq0].
  - unfold P in Hrow. rewrite compute_log_alpha_k_real in Hrow by assumption.
    apply Some_inj in Hrow. subst la.
    cbn [xsub xexp] in Hn. rewrite xdiv_pos in Hn by exact Hs.
    eexists. split; [exact Hn|]. split; [|split]; intros; try lra.
    apply Rdiv_lt_0_compat; [apply exp_pos | exact Hs].
  - subst qi. rewrite (compute_log_alpha_k_zero_prior t rx _ Hlw) in Hrow.
    apply Some_inj in Hrow. subst la.
    destruct (row_kept p t rx); cbn [xsub xexp] in Hn; rewrite xdiv_pos in Hn by exact Hs;
      (eexists; split; [exact Hn|]); (split; [|split]); intros; try lra;
      try discriminate.
    apply Rdiv_lt_0_compat; [apply exp_pos | exact Hs].
Qed.

End Support.

Lemma baa_step_support_witness :
  exists Q_new,
    do_full_baa_step bsc_channel [0%nat; 1%nat] [0%nat; 1%nat] (map XFin [1; 0]) =
      Some Q_new /\
    forall i t qi,
      nth_error [0%nat; 1%nat] i = Some t -> nth_error [1; 0] i = Some qi ->
      exists qn,
        nth_error Q_new i = Some (XFin qn) /\
        (0 < qi -> 0 < qn) /\
        (qi = 0 -> row_kept bsc_p t [0%nat; 1%nat] = true -> qn = 0) /\
        (qi = 0 -> row_kept bsc_p t [0%nat; 1%nat] = false -> 0 < qn).
Proof.
  apply (baa_step_support nat bsc_p [0%nat; 1%nat] [0%nat; 1%nat] [1; 0]).
  - reflexivity.
  - reflexivity.
  - repeat constructor; lra.
  - unfold Rsum. simpl. lra.
  - unfold pair_marginals_positive, marginal, Rsum, bsc_p. simpl. split; [lra | exact I].
Defined.

(** ** Zero transition probabilities *)




Section ZeroProbabilities.

Variable CW : Type.
Variable p : CW -> CW -> R.

Local Abbreviation P := (finite_channel p).









Hypothesis p_not_negative : forall t r, 0 <= p t r.





End ZeroProbabilities.



(** The condition on the codewords of prior 0 holds on the Z-channel with
    the prior [1; 0]: the second codeword reaches the one pair of received
    symbols, whose mean marginal is 1/2. *)
Lemma z_channel_zero_prior_reaches_positive_pairs :
  zero_priors_reach_positive_pairs z_p [0%nat; 1%nat] [1; 0] [0%nat; 1%nat].
Proof.
  intros t r mean _ Hr _. cbn [pair_means combine] in Hr.
  assert (Hmean : (marginal z_p [0%nat; 1%nat] [1; 0] 0%nat +
                   marginal z_p [0%nat; 1%nat] [1; 0] 1%nat) / 2 = 1 / 2).
  { unfold marginal, Rsum, z_p. simpl. lra. }
  rewrite Hmean in Hr.
  destruct Hr as [Heq | [Heq | []]]; inversion Heq; lra.
Qed.




(** C3, as the specification has it, fails on valid inputs.  On the channel
    with disjoint supports and the prior [1; 0] the step produces a result
    that does not sum to 1: both entries are NaN.  With three received
    codewords, each of probability 1/3, and the prior [1], the step produces
    no result: the aggregator reads past the last codeword. *)
Lemma baa_step_normalised_counterexample :
  ~ baa_step_result_sums_to_one split_channel (/ 10 ^ 9) [0%nat; 1%nat]
      [0%nat; 1%nat; 2%nat; 3%nat] [XFin 1; XFin 0] /\
  do_full_baa_step uniform3_channel [0%nat] [0%nat; 1%nat; 2%nat] [XFin 1] = None /\
  ~ baa_step_normalised_spec uniform3_channel (/ 10 ^ 9) [0%nat]
      [0%nat; 1%nat; 2%nat] [XFin 1].
Proof.
  assert (Hnone : do_full_baa_step uniform3_channel [0%nat] [0%nat; 1%nat; 2%nat]
                    [XFin 1] = None).
  { unfold do_full_baa_step, stabilized_alphas.
    rewrite (log_Wjk_den_odd (F := xreal_ops)) by reflexivity. reflexivity. }
  split; [|split; [exact Hnone|]].
  - intros H.
    destruct (H _ baa_step_unreachable_symbols) as [q_new [Hq _]].
    destruct q_new as [|x q_new]; simpl in Hq; discriminate Hq.
  - intros [q_new [Hq _]]. rewrite Hnone in Hq. discriminate Hq.
Qed.
